(** * Image store, index and container creation of the docker daemon

    A shallow embedding of [image/image.go] (package [image]) and of
    [Server.CreateContainer] (package [server]), followed by the properties
    of the specification that are checked against them.

    Conventions of the embedding.
    - A Go function returning [(T, error)] returns [result T]; a function
      returning only [error] returns [option error] ([None] is [nil]).
    - The receiver [index *Index], the files under its [Path] and the record
      of the file operations performed are threaded through a state monad
      [M]; a run-time panic (index out of range) is an outcome of its own.
    - [*Image] and [*History] are modelled by the values they point to:
      no image object is taken to be shared by two entries of the
      histories.  That is how a [load] of the index file leaves the index,
      every entry of a document being decoded into an object of its own,
      and [Add] files the one pointer it is given under one name and one
      id.  [Rename], the one method that writes through an [*Image], files
      the written image under its new id and drops the old key, so that an
      object shared by a history and [ById] reads the same in both.
    - [time.Time] is an instant on the integer line; [Before] is [<].
    - The packages that are not part of [image.go] are interfaces:
      [future.ComputeId], [sort.Sort], [regexp.MatchString], the errors of
      [json.Marshal], the layer store and the container runtime. *)

From Stdlib Require Import ZArith Lia Ascii String List Sorted Permutation.
From stdpp Require Import base option list sorting gmap strings.

Local Open Scope string_scope.
Local Open Scope Z_scope.
Local Open Scope list_scope.
Local Open Scope stdpp_scope.

(** ** Errors and results *)

(** Go [error] values.  [errors_New msg] is [errors.New(msg)]; the other
    constructors are the errors of the standard library that the code
    tells apart or passes on. *)
Inductive error : Type :=
| errors_New (msg : string)
| os_ErrNotExist (path : string)        (* an error with [os.IsNotExist] *)
| os_PathError (op path msg : string)   (* any other file error *)
| json_SyntaxError                      (* [json.Unmarshal] rejected the input *)
| json_MarshalerError (msg : string).   (* [json.Marshal] could not encode *)

(** The method [Error()]. *)
Definition error_Error (err : error) : string :=
  match err with
  | errors_New msg => msg
  | os_ErrNotExist path => "open " +:+ path +:+ ": no such file or directory"
  | os_PathError op path msg => op +:+ " " +:+ path +:+ ": " +:+ msg
  | json_SyntaxError => "unexpected end of JSON input"
  | json_MarshalerError msg =>
      "json: error calling MarshalJSON for type time.Time: " +:+ msg
  end.

Definition os_IsNotExist (err : error) : bool :=
  match err with
  | os_ErrNotExist _ => true
  | _ => false
  end.

Inductive result (A : Type) : Type :=
| Ok (a : A)
| Err (e : error).
Arguments Ok {A} a.
Arguments Err {A} e.

(** ** [path.Base] *)

Definition slash : ascii := "/"%char.

(** Drops the slashes at the front of a list of characters. *)
Fixpoint drop_slashes (l : list ascii) : list ascii :=
  match l with
  | c :: r => if Ascii.eqb c slash then drop_slashes r else l
  | [] => []
  end.

(** The characters before the first slash. *)
Fixpoint until_slash (l : list ascii) : list ascii :=
  match l with
  | c :: r => if Ascii.eqb c slash then [] else c :: until_slash r
  | [] => []
  end.

(** [path.Base]: the last element of a path.  Trailing slashes are
    removed first; the empty path gives ["."], a path of slashes gives
    ["/"].  The path is read from its end, so it is reversed first. *)
Definition path_Base (path : string) : string :=
  if String.eqb path "" then "."
  else
    let stripped := drop_slashes (rev (list_ascii_of_string path)) in
    match until_slash stripped with
    | [] => "/"
    | last => string_of_list_ascii (rev last)
    end.

(** ** Images *)

Record Image : Type := mkImage {
  Id : string;            (* Globally unique identifier *)
  Layers : list string;   (* Absolute paths *)
  Created : Z;
  Parent : string
}.

Definition Image_setId (image : Image) (id : string) : Image :=
  {| Id := id; Layers := Layers image; Created := Created image;
     Parent := Parent image |}.

Definition IdIsFinal (image : Image) : bool :=
  Nat.eqb (length (Layers image)) 1.

(** [future.ComputeId]: the digest of a stream of bytes.  The package
    [future] is not part of the embedded files. *)
Class Future : Type := {
  ComputeId : string -> result string
}.

Section ImageId.
Context `{future : Future}.

(** The loop [for _, layer := range layers { ids += path.Base(layer) }]. *)
Definition layer_ids (layers : list string) : string :=
  fold_left (fun ids layer => ids +:+ path_Base layer) layers "".

Definition generateImageId (name : string) (layers : list string)
  : result string :=
  if Nat.eqb (length layers) 0 then Err (errors_New "No layers provided.")
  else
    let hash :=
      if Nat.eqb (length layers) 1 then Ok (path_Base (nth 0 layers ""))
      else ComputeId (layer_ids layers) in
    match hash with
    | Err err => Err err
    | Ok hash => Ok (name +:+ ":" +:+ hash)
    end.

(** [NewImage]; [now] is the reading of [time.Now()]. *)
Definition NewImage (now : Z) (name : string) (layers : list string)
    (parent : string) : result Image :=
  match generateImageId name layers with
  | Err err => Err err
  | Ok id =>
      Ok {| Id := id; Layers := layers; Created := now; Parent := parent |}
  end.
End ImageId.

(** ** Histories *)

(** [History.Less] on the elements at positions [i] and [j]:
    [images[j].Created.Before(images[i].Created)]. *)
Definition History_Less (image_i image_j : Image) : bool :=
  Z.ltb (Created image_j) (Created image_i).

(** [sort.Sort], by its contract: the result is a rearrangement of the
    input in which no element is [less] than the one before it, for every
    [less] that is a strict weak ordering.  The algorithm itself depends
    on the length of the slice and is not stable. *)
Record StrictWeak {A : Type} (less : A -> A -> bool) : Prop := {
  less_irrefl : forall x, less x x = false;
  less_trans : forall x y z, less x y = true -> less y z = true ->
                             less x z = true;
  less_neg_trans : forall x y z, less x y = false -> less y z = false ->
                                 less x z = false
}.

Class Sort : Type := {
  sort_Sort : forall {A : Type}, (A -> A -> bool) -> list A -> list A;
  sort_Sort_Permutation : forall (A : Type) (less : A -> A -> bool) l,
      Permutation l (sort_Sort less l);
  sort_Sort_Sorted : forall (A : Type) (less : A -> A -> bool) l,
      StrictWeak less ->
      Sorted (fun x y => less y x = false) (sort_Sort less l)
}.

(** [regexp.MatchString(pattern, s)]. *)
Class Regexp : Type := {
  regexp_MatchString : string -> string -> result bool
}.

Section HistoryOps.
Context `{sorter : Sort}.

Definition History_Len (history : list Image) : nat := length history.

(** [History.Add]: append, then [sort.Sort(history)]. *)
Definition History_Add (history : list Image) (image : Image)
  : list Image :=
  sort_Sort History_Less (history ++ [image]).
End HistoryOps.

(** ** The index, its file and the state monad *)

Record Index : Type := mkIndex {
  Path : string;
  ByName : gmap string (list Image);
  ById : gmap string Image
}.

Definition NewIndex (path : string) : Index :=
  {| Path := path; ByName := ∅; ById := ∅ |}.

(** What a file holds, up to what [encoding/json] makes of it:
    [JsonDoc doc] is the text [json.Marshal] writes for [doc], which
    [json.Unmarshal] decodes to [doc] again; [Truncated doc] is a strict
    prefix of that text, and [Garbage raw] any other text that is not a
    JSON document.  [json.Unmarshal] rejects both before it stores
    anything. *)
Inductive FileData : Type :=
| JsonDoc (doc : Index)
| Truncated (doc : Index)
| Garbage (raw : string).

(** How the next file operation goes wrong, if it does: [Fail] is an
    error before any byte is transferred (permissions, a directory in the
    way), [FailPartial] an error in the middle of a write. *)
Inductive IOFault : Type := NoFault | Fail | FailPartial.

(** The operations on files, as the operating system sees them. *)
Inductive FsOp : Type :=
| OpReadFile (path : string)
| OpWriteFile (path : string) (data : FileData)
| OpRename (oldpath newpath : string).

Record World : Type := mkWorld {
  files : gmap string FileData;
  faults : list IOFault;          (* consumed one per file operation *)
  trace : list FsOp               (* operations performed, oldest first *)
}.

Record State : Type := mkState {
  index : Index;                  (* the receiver [*Index] *)
  world : World
}.

Inductive outcome (A : Type) : Type :=
| Val (a : A)
| Panic (msg : string).
Arguments Val {A} a.
Arguments Panic {A} msg.

Definition M (A : Type) : Type := State -> outcome A * State.

Definition ret {A : Type} (a : A) : M A := fun st => (Val a, st).

Definition bind {A B : Type} (c : M A) (k : A -> M B) : M B :=
  fun st =>
    match c st with
    | (Val a, st') => k a st'
    | (Panic msg, st') => (Panic msg, st')
    end.

Definition panic {A : Type} (msg : string) : M A :=
  fun st => (Panic msg, st).

Notation "x <~ c1 ;; c2" := (bind c1 (fun x => c2))
  (at level 100, c1 at next level, right associativity).
Notation "c1 ;;; c2" := (bind c1 (fun _ => c2))
  (at level 100, right associativity).

Definition get_index : M Index := fun st => (Val (index st), st).

Definition put_index (i : Index) : M unit :=
  fun st => (Val tt, {| index := i; world := world st |}).

Definition next_fault (fs : list IOFault) : IOFault * list IOFault :=
  match fs with
  | [] => (NoFault, [])
  | f :: rest => (f, rest)
  end.

(** [ioutil.ReadFile]. *)
Definition ioutil_ReadFile (path : string) : M (result FileData) :=
  fun st =>
    let w := world st in
    let (fault, rest) := next_fault (faults w) in
    let w' := {| files := files w; faults := rest;
                 trace := trace w ++ [OpReadFile path] |} in
    let r :=
      match fault with
      | NoFault =>
          match files w !! path with
          | None => Err (os_ErrNotExist path)
          | Some data => Ok data
          end
      | _ => Err (os_PathError "open" path "permission denied")
      end in
    (Val r, {| index := index st; world := w' |}).

(** [ioutil.WriteFile]: the file is opened truncated and written in
    place. *)
Definition ioutil_WriteFile (path : string) (doc : Index)
  : M (option error) :=
  fun st =>
    let w := world st in
    let (fault, rest) := next_fault (faults w) in
    let tr := trace w ++ [OpWriteFile path (JsonDoc doc)] in
    match fault with
    | NoFault =>
        (Val None,
         {| index := index st;
            world := {| files := <[path := JsonDoc doc]> (files w);
                        faults := rest; trace := tr |} |})
    | Fail =>
        (Val (Some (os_PathError "open" path "permission denied")),
         {| index := index st;
            world := {| files := files w; faults := rest; trace := tr |} |})
    | FailPartial =>
        (Val (Some (os_PathError "write" path "no space left on device")),
         {| index := index st;
            world := {| files := <[path := Truncated doc]> (files w);
                        faults := rest; trace := tr |} |})
    end.

(** [json.Marshal(index)].  The struct has only strings, slices,
    string-keyed maps and times; the encoder returns an error for a time
    it cannot write, one whose year is not within 0 to 9999, and the text
    of the index otherwise.  Which indexes it refuses is left to the
    interface: [json_Marshal_error] is the error, if any.  The strings of
    an index are taken to be valid UTF-8, which the encoder writes, and
    the decoder reads back, as they are. *)
Class Json : Type := {
  json_Marshal_error : Index -> option error
}.

Definition json_Marshal `{json : Json} (i : Index) : result Index :=
  match json_Marshal_error i with
  | Some err => Err err
  | None => Ok i
  end.

(** [json.Unmarshal(jsonData, index)]: the decoder keeps the maps of the
    receiver and stores the pairs of the document into them, so an entry
    of the receiver that the document lacks stays. *)
Definition json_Unmarshal (jsonData : FileData) : M (option error) :=
  match jsonData with
  | JsonDoc doc =>
      i <~ get_index ;;
      put_index {| Path := Path doc;
                   ByName := ByName doc ∪ ByName i;
                   ById := ById doc ∪ ById i |} ;;;
      ret None
  | Truncated _ | Garbage _ => ret (Some json_SyntaxError)
  end.

Definition Index_load : M (option error) :=
  i <~ get_index ;;
  r <~ ioutil_ReadFile (Path i) ;;
  match r with
  | Err err => if os_IsNotExist err then ret None else ret (Some err)
  | Ok jsonData =>
      let path := Path i in
      err <~ json_Unmarshal jsonData ;;
      match err with
      | Some err => ret (Some err)
      | None =>
          i' <~ get_index ;;
          put_index {| Path := path; ByName := ByName i'; ById := ById i' |} ;;;
          ret None
      end
  end.

Definition Index_save `{json : Json} : M (option error) :=
  i <~ get_index ;;
  match json_Marshal i with
  | Err err => ret (Some err)
  | Ok jsonData => ioutil_WriteFile (Path i) jsonData
  end.

Definition Index_Exists (i : Index) (id : string) : bool :=
  bool_decide (is_Some (ById i !! id)).

Definition Index_Find (idOrName : string) : M (option Image) :=
  err <~ Index_load ;;
  match err with
  | Some _ => ret None
  | None =>
      i <~ get_index ;;
      match ById i !! idOrName with
      | Some image => ret (Some image)
      | None =>
          match ByName i !! idOrName with
          | Some (image :: _) => ret (Some image)
          | _ => ret None
          end
      end
  end.

Section IndexOps.
Context `{json : Json} `{future : Future} `{sorter : Sort}
        `{matcher : Regexp}.

(** The end of [Index.Add], from [index.ByName[name].Add(image)] on. *)
Definition Index_Add_store (name : string) (image : Image)
  : M (option error) :=
  i <~ get_index ;;
  match ByName i !! name with
  | None => panic "invalid memory address or nil pointer dereference"
  | Some history =>
      put_index {| Path := Path i;
                   ByName := <[name := History_Add history image]> (ByName i);
                   ById := <[Id image := image]> (ById i) |} ;;;
      Index_save
  end.

Definition Index_Add (name : string) (image : Image) : M (option error) :=
  err <~ Index_load ;;
  match err with
  | Some err => ret (Some err)
  | None =>
      i <~ get_index ;;
      match ByName i !! name with
      | None =>
          (* index.ByName[name] = new(History) *)
          put_index {| Path := Path i;
                       ByName := <[name := []]> (ByName i);
                       ById := ById i |} ;;;
          Index_Add_store name image
      | Some [] => panic "index out of range"
      | Some (latest :: _) =>
          (* If this image is already the latest version, don't add it. *)
          if String.eqb (Id latest) (Id image) then ret None
          else Index_Add_store name image
      end
  end.

Definition Index_Copy (now : Z) (srcNameOrId dstName : string)
  : M (result Image) :=
  if String.eqb srcNameOrId "" || String.eqb dstName "" then
    ret (Err (errors_New "Illegal image name"))
  else
    err <~ Index_load ;;
    match err with
    | Some err => ret (Err err)
    | None =>
        src <~ Index_Find srcNameOrId ;;
        match src with
        | None => ret (Err (errors_New ("No such image: " +:+ srcNameOrId)))
        | Some src =>
            match NewImage now dstName (Layers src) (Id src) with
            | Err err => ret (Err err)
            | Ok dst =>
                err <~ Index_Add dstName dst ;;
                match err with
                | Some err => ret (Err err)
                | None =>
                    err <~ Index_save ;;
                    match err with
                    | Some err => ret (Err err)
                    | None => ret (Ok dst)
                    end
                end
            end
        end
    end.

(** The loop of [Index.Rename] over the images of the moved history:
    [ready] are the images already given their new id, [todo] the others.
    An id that cannot be generated ends the loop with what was written
    so far. *)
Fixpoint Rename_ids (newName : string) (ready todo : list Image)
    (byId : gmap string Image)
  : list Image * gmap string Image * option error :=
  match todo with
  | [] => (ready, byId, None)
  | image :: rest =>
      match generateImageId newName (Layers image) with
      | Err err => (ready ++ todo, byId, Some err)
      | Ok id =>
          let oldId := Id image in
          let image' := Image_setId image id in
          Rename_ids newName (ready ++ [image']) rest
                     (delete oldId (<[id := image']> byId))
      end
  end.

Definition Index_Rename (oldName newName : string) : M (option error) :=
  err <~ Index_load ;;
  match err with
  | Some err => ret (Some err)
  | None =>
      i <~ get_index ;;
      match ByName i !! oldName with
      | None =>
          ret (Some (errors_New
                       ("Can't rename " +:+ oldName +:+ ": no such image.")))
      | Some history =>
          match ByName i !! newName with
          | Some _ =>
              ret (Some (errors_New
                           ("Can't rename to " +:+ newName +:+
                            ": name is already in use.")))
          | None =>
              let byName := delete oldName (<[newName := history]> (ByName i)) in
              (* Change the ID of all images, since they include the name *)
              match byName !! newName with
              | None =>
                  put_index {| Path := Path i; ByName := byName;
                               ById := ById i |} ;;;
                  panic "invalid memory address or nil pointer dereference"
              | Some moved =>
                  let '(moved', byId, err) :=
                    Rename_ids newName [] moved (ById i) in
                  put_index {| Path := Path i;
                               ByName := <[newName := moved']> byName;
                               ById := byId |} ;;;
                  match err with
                  | Some err => ret (Some err)
                  | None => Index_save
                  end
              end
          end
      end
  end.

(** [for _, image := range history { delete(index.ById, image.Id) }]. *)
Definition delete_ids (history : list Image) (byId : gmap string Image)
  : gmap string Image :=
  fold_left (fun byId image => delete (Id image) byId) history byId.

(** Delete deletes all images with the name [name] *)
Definition Index_Delete (name : string) : M (option error) :=
  err <~ Index_load ;;
  match err with
  | Some err => ret (Some err)
  | None =>
      i <~ get_index ;;
      match ByName i !! name with
      | None => ret (Some (errors_New ("No such image: " +:+ name)))
      | Some history =>
          put_index {| Path := Path i;
                       ByName := delete name (ByName i);
                       ById := delete_ids history (ById i) |} ;;;
          Index_save
      end
  end.

(** The loop of [Index.DeleteMatch] over the entries of [ByName], in
    the order the map yields them. *)
Fixpoint DeleteMatch_loop (pattern : string)
    (entries : list (string * list Image)) (i : Index)
  : Index * option error :=
  match entries with
  | [] => (i, None)
  | (name, history) :: rest =>
      match regexp_MatchString pattern name with
      | Err err => (i, Some err)
      | Ok true =>
          DeleteMatch_loop pattern rest
            {| Path := Path i;
               ByName := delete name (ByName i);
               ById := delete_ids history (ById i) |}
      | Ok false => DeleteMatch_loop pattern rest i
      end
  end.

(** DeleteMatch deletes all images whose name matches [pattern] *)
Definition Index_DeleteMatch (pattern : string) : M (option error) :=
  err <~ Index_load ;;
  match err with
  | Some err => ret (Some err)
  | None =>
      i <~ get_index ;;
      let '(i', err) := DeleteMatch_loop pattern (map_to_list (ByName i)) i in
      put_index i' ;;;
      match err with
      | Some err => ret (Some err)
      | None => Index_save
      end
  end.

Definition Index_Names : M (list string) :=
  err <~ Index_load ;;
  match err with
  | Some _ => ret []
  | None =>
      i <~ get_index ;;
      let names := (map_to_list (ByName i)).*1 in
      ret (sort_Sort String.ltb names)
  end.
End IndexOps.

(** ** The store *)

(** The layer store of [Store.Layers]: [AddLayer] unpacks an archive and
    returns the path of the new layer.  Its file is not among the embedded
    ones. *)
Class LayerStore : Type := {
  Archive : Type;
  Layers_state : Type;
  AddLayer : Archive -> Layers_state -> result string * Layers_state
}.

Section StoreOps.
Context `{json : Json} `{future : Future} `{sorter : Sort}
        `{layerstore : LayerStore}.

Definition Store_Create (now : Z) (name source : string)
    (layers : list string) : M (result Image) :=
  match NewImage now name layers source with
  | Err err => ret (Err err)
  | Ok image =>
      err <~ Index_Add name image ;;
      match err with
      | Some err => ret (Err err)
      | None => ret (Ok image)
      end
  end.

(** Import creates a new image from the contents of [archive] and
    registers it in the store as [name].  If [parent] is not nil, it
    will registered as the parent of the new image. *)
Definition Store_Import (now : Z) (name : string) (archive : Archive)
    (parent : option Image) (ls : Layers_state)
  : M (result Image) * Layers_state :=
  match AddLayer archive ls with
  | (Err err, ls') => (ret (Err err), ls')
  | (Ok layer, ls') =>
      let layers := [layer] in
      let layers :=
        match parent with
        | Some p => layers ++ Layers p
        | None => layers
        end in
      let parentId :=
        match parent with
        | Some p => Id p
        | None => ""
        end in
      (Store_Create now name parentId layers, ls')
  end.
End StoreOps.

(** ** Creating a container (package [server]) *)

(** [docker.Config], the fields [CreateContainer] sets. *)
Record Config : Type := mkConfig {
  Hostname : string;
  Ports : list Z;
  User : string;
  Tty : bool;
  OpenStdin : bool
}.

(** Modelled from the spec: the container runtime behind [srv.containers]
    (package [docker]), which is not among the embedded files.  [Create]
    "allocates the RW layer, persists metadata, returns the record" and
    "does not start the process"; [Destroy] "fails with Busy if
    state.running; otherwise unmounts, removes RW layer and metadata";
    [SetUserData] stores container-scoped metadata.  [Containers_state] is
    all the runtime holds, [Containers_List] the ids of its containers. *)
Class Runtime : Type := {
  Containers_state : Type;
  Container : Type;
  Container_Id : Container -> string;
  Container_Running : Container -> Containers_state -> bool;
  Containers_List : Containers_state -> list string;
  Containers_Create :
    string -> string -> list string -> list string -> Config ->
    Containers_state -> result Container * Containers_state;
  Container_SetUserData :
    Container -> string -> string ->
    Containers_state -> option error * Containers_state;
  Containers_Destroy :
    Container -> Containers_state -> option error * Containers_state;
  Create_not_running : forall id cmd args layers config rt c rt',
      Containers_Create id cmd args layers config rt = (Ok c, rt') ->
      Container_Running c rt' = false;
  SetUserData_Running : forall c key value rt,
      Container_Running c (Container_SetUserData c key value rt).2
      = Container_Running c rt;
  Destroy_not_running : forall c rt,
      Container_Running c rt = false ->
      (Containers_Destroy c rt).1 = None /\
      Container_Id c ∉ Containers_List (Containers_Destroy c rt).2
}.

Section Server.
Context `{runtime : Runtime}.

(** [random] is the string [future.RandomId()] returned; taking its
    first eight bytes panics when it is shorter. *)
Definition CreateContainer (random : string) (img : Image)
    (ports : list Z) (user : string) (tty openStdin : bool)
    (comment cmd : string) (args : list string) (rt : Containers_state)
  : outcome (result Container) * Containers_state :=
  if Nat.ltb (String.length random) 8 then
    (Panic "slice bounds out of range", rt)
  else
    let id := String.substring 0 8 random in
    match Containers_Create id cmd args (Layers img)
            {| Hostname := id; Ports := ports; User := user; Tty := tty;
               OpenStdin := openStdin |} rt with
    | (Err err, rt) => (Val (Err err), rt)
    | (Ok container, rt) =>
        match Container_SetUserData container "image" (Id img) rt with
        | (Some err, rt) =>
            let '(_, rt) := Containers_Destroy container rt in
            (Val (Err (errors_New ("Error setting container userdata: "
                                     +:+ error_Error err))), rt)
        | (None, rt) =>
            match Container_SetUserData container "comment" comment rt with
            | (Some err, rt) =>
                let '(_, rt) := Containers_Destroy container rt in
                (Val (Err (errors_New ("Error setting container userdata: "
                                         +:+ error_Error err))), rt)
            | (None, rt) => (Val (Ok container), rt)
            end
        end
    end.
End Server.

(** ** An insertion sort

    [sort.Sort] runs [insertionSort] on short slices:
    [for i := a+1; i < b; i++ { for j := i; j > a && Less(j, j-1); j-- { Swap(j, j-1) } }].
    [sink] is the inner loop: the sorted prefix is held nearest element
    first, and [v] passes every element it is [less] than. *)
Fixpoint sink {A : Type} (less : A -> A -> bool) (v : A) (before : list A)
  : list A :=
  match before with
  | [] => [v]
  | x :: r => if less v x then x :: sink less v r else v :: before
  end.

Definition insertionSort {A : Type} (less : A -> A -> bool) (l : list A)
  : list A :=
  reverse (fold_left (fun before v => sink less v before) l []).

(** * Properties *)

(** ** The insertion sort meets the contract of [sort.Sort] *)

Section InsertionSort.
Context {A : Type} (less : A -> A -> bool).

Lemma sink_Permutation v before : sink less v before ≡ₚ v :: before.
Proof.
  induction before as [|x r IH]; simpl; [done|].
  destruct (less v x); [|done].
  rewrite IH. apply perm_swap.
Qed.

Lemma insertion_fold_Permutation l acc :
  fold_left (fun before v => sink less v before) l acc ≡ₚ l ++ acc.
Proof.
  revert acc. induction l as [|v l IH]; intros acc; simpl; [done|].
  rewrite IH, sink_Permutation. symmetry. apply Permutation_middle.
Qed.

Lemma insertionSort_Permutation l : l ≡ₚ insertionSort less l.
Proof.
  unfold insertionSort. rewrite reverse_Permutation.
  rewrite insertion_fold_Permutation. by rewrite app_nil_r.
Qed.

Hypothesis Hless : StrictWeak less.

Lemma less_asym x y : less x y = true -> less y x = false.
Proof.
  intros Hxy. destruct (less y x) eqn:Hyx; [|done].
  pose proof (less_trans less Hless _ _ _ Hxy Hyx) as Hxx.
  by rewrite (less_irrefl less Hless) in Hxx.
Qed.

(** Nearest first, the prefix never has an element [less] than the one
    that follows it in the slice. *)
Definition after (x y : A) : Prop := less x y = false.

Lemma sink_HdRel x v r :
  less v x = true -> HdRel after x r -> HdRel after x (sink less v r).
Proof.
  intros Hvx Hr. destruct r as [|y r]; simpl.
  - constructor. by apply less_asym.
  - destruct (less v y).
    + constructor. by inversion Hr.
    + constructor. by apply less_asym.
Qed.

Lemma sink_Sorted v before :
  Sorted after before -> Sorted after (sink less v before).
Proof.
  induction 1 as [|x r Hr IH Hx]; simpl.
  - by repeat constructor.
  - destruct (less v x) eqn:Hvx.
    + constructor; [done|]. by apply sink_HdRel.
    + constructor; [by constructor|]. by constructor.
Qed.

Lemma insertion_fold_Sorted l acc :
  Sorted after acc ->
  Sorted after (fold_left (fun before v => sink less v before) l acc).
Proof.
  revert acc. induction l as [|v l IH]; intros acc Hacc; simpl; [done|].
  apply IH. by apply sink_Sorted.
Qed.

Lemma insertionSort_Sorted l :
  Sorted (fun x y => less y x = false) (insertionSort less l).
Proof.
  unfold insertionSort.
  apply (Sorted_reverse after). apply insertion_fold_Sorted. constructor.
Qed.
End InsertionSort.

#[local] Instance insertion_Sort : Sort := {|
  sort_Sort := @insertionSort;
  sort_Sort_Permutation := @insertionSort_Permutation;
  sort_Sort_Sorted := fun A less l Hless => @insertionSort_Sorted A less Hless l
|}.

(** ** Image ids *)

Lemma append_cons a s t : String a s +:+ t = String a (s +:+ t).
Proof. reflexivity. Qed.

Lemma append_assoc s t u : (s +:+ t) +:+ u = s +:+ (t +:+ u).
Proof.
  induction s as [|a s IH]; [reflexivity|].
  rewrite !append_cons. by rewrite IH.
Qed.

Lemma append_empty_r s : s +:+ "" = s.
Proof.
  induction s as [|a s IH]; [reflexivity|].
  rewrite append_cons. by rewrite IH.
Qed.

(** The concatenation of a list of strings, first to last. *)
Definition concat_strings (l : list string) : string :=
  fold_right String.append "" l.

Lemma layer_ids_from acc layers :
  fold_left (fun ids layer => ids +:+ path_Base layer) layers acc
  = acc +:+ concat_strings (map path_Base layers).
Proof.
  revert acc. induction layers as [|layer layers IH]; intros acc; simpl.
  - by rewrite append_empty_r.
  - rewrite IH. by rewrite append_assoc.
Qed.

Lemma layer_ids_concat layers :
  layer_ids layers = concat_strings (map path_Base layers).
Proof. unfold layer_ids. by rewrite layer_ids_from. Qed.

(** A layer is named by its digest: the directory of the layer store
    under which it lies is not part of it.  On a digest itself, a
    non-empty string without a slash, [path.Base] is the identity. *)
Lemma until_slash_plain l :
  Forall (fun c => c <> slash) l -> until_slash l = l.
Proof.
  induction 1 as [|c l Hc _ IH]; simpl; [done|].
  destruct (Ascii.eqb_spec c slash); [done|]. by rewrite IH.
Qed.

Lemma path_Base_plain (digest : string) :
  digest <> "" ->
  Forall (fun c => c <> slash) (list_ascii_of_string digest) ->
  path_Base digest = digest.
Proof.
  intros Hne Hplain. unfold path_Base.
  destruct (String.eqb_spec digest ""); [done|].
  assert (Hrev : Forall (fun c => c <> slash)
                        (rev (list_ascii_of_string digest))).
  { by apply List.Forall_rev. }
  assert (Hstrip : drop_slashes (rev (list_ascii_of_string digest))
                   = rev (list_ascii_of_string digest)).
  { destruct (rev (list_ascii_of_string digest)) as [|c r]; simpl; [done|].
    inversion Hrev; subst. by destruct (Ascii.eqb_spec c slash). }
  rewrite Hstrip, until_slash_plain by done.
  destruct (rev (list_ascii_of_string digest)) as [|c r] eqn:Hr.
  - exfalso. apply Hne.
    rewrite <- (string_of_list_ascii_of_string digest).
    rewrite <- (rev_involutive (list_ascii_of_string digest)), Hr.
    reflexivity.
  - rewrite <- Hr, rev_involutive. apply string_of_list_ascii_of_string.
Qed.

(** The hash of an image as the specification words it: the digest of
    the single layer of a final image, otherwise the digest of the
    concatenation of the layer digests.  The digest of a layer is the last
    element of its path. *)
Definition spec_hash `{Future} (layers : list string) : result string :=
  match layers with
  | [layer] => Ok (path_Base layer)
  | _ => ComputeId (concat_strings (map path_Base layers))
  end.

(** C1.  [NewImage(name, layers, parent)] fails on an empty list of
    layers; on any other list it returns the image whose id is
    [name + ":" + hash], where [hash] is the digest of the single layer of
    a one-layer list and otherwise the digest, by [ComputeId], of the
    concatenation of the layer digests (an error of [ComputeId] is
    passed on).  The image keeps the layers and the parent it was given. *)
Theorem NewImage_id `{Future} (now : Z) (name : string)
    (layers : list string) (parent : string) :
  NewImage now name layers parent =
    match layers with
    | [] => Err (errors_New "No layers provided.")
    | _ =>
        match spec_hash layers with
        | Ok hash =>
            Ok {| Id := name +:+ ":" +:+ hash; Layers := layers;
                  Created := now; Parent := parent |}
        | Err err => Err err
        end
    end.
Proof.
  unfold NewImage, generateImageId, spec_hash.
  destruct layers as [|layer [|layer' layers]]; simpl; [done..|].
  rewrite layer_ids_concat. simpl.
  by destruct (ComputeId _).
Qed.

Example path_Base_layer :
  path_Base "/var/lib/docker/images/layers/4f2a" = "4f2a".
Proof. reflexivity. Qed.

Example path_Base_trailing : path_Base "layers/4f2a//" = "4f2a".
Proof. reflexivity. Qed.

Example path_Base_edge :
  path_Base "" = "." /\ path_Base "///" = "/".
Proof. split; reflexivity. Qed.

(** ** Histories are kept newest first *)

Lemma History_Less_StrictWeak : StrictWeak History_Less.
Proof.
  unfold History_Less. split.
  - intros x. apply Z.ltb_irrefl.
  - intros x y z Hxy Hyz. apply Z.ltb_lt in Hxy, Hyz. apply Z.ltb_lt. lia.
  - intros x y z Hxy Hyz. apply Z.ltb_ge in Hxy, Hyz. apply Z.ltb_ge. lia.
Qed.

(** In a sorted list, neighbours are related. *)
Lemma Sorted_lookup_S {A : Type} (R : A -> A -> Prop) (l : list A) :
  Sorted R l ->
  forall (k : nat) (x y : A), l !! k = Some x -> l !! S k = Some y -> R x y.
Proof.
  induction 1 as [|a l Hl IH Ha]; intros k x y Hx Hy; [done|].
  destruct k as [|k]; simpl in *.
  - simplify_eq. destruct l as [|b l]; simplify_eq/=. by inversion Ha.
  - eauto.
Qed.

Lemma Sorted_weaken {A : Type} (R1 R2 : A -> A -> Prop) (l : list A) :
  (forall x y, R1 x y -> R2 x y) -> Sorted R1 l -> Sorted R2 l.
Proof.
  intros HR. induction 1 as [|a l Hl IH Ha]; constructor; [done|].
  destruct Ha; constructor; auto.
Qed.

Section HistoryFacts.
Context `{sorter : Sort}.

Lemma History_Add_Permutation history image :
  History_Add history image ≡ₚ image :: history.
Proof.
  unfold History_Add. rewrite <- sort_Sort_Permutation.
  symmetry. apply Permutation_cons_append.
Qed.

Lemma History_Add_Sorted history image :
  Sorted (fun newer older => Created older <= Created newer)
         (History_Add history image).
Proof.
  unfold History_Add.
  eapply Sorted_weaken;
    [|apply sort_Sort_Sorted, History_Less_StrictWeak].
  intros x y Hxy. unfold History_Less in Hxy. by apply Z.ltb_ge in Hxy.
Qed.

(** C4.  After [History.Add(image)] the history holds the images it
    held and [image], sorted by creation time, newest first: at every
    valid position [k], [history[k].created >= history[k+1].created]. *)
Theorem History_Add_sorted (history : list Image) (image : Image) :
  History_Add history image ≡ₚ image :: history /\
  forall (k : nat) (newer older : Image),
    History_Add history image !! k = Some newer ->
    History_Add history image !! S k = Some older ->
    Created newer >= Created older.
Proof.
  split; [apply History_Add_Permutation|].
  intros k newer older Hk HSk.
  pose proof (Sorted_lookup_S _ _ (History_Add_Sorted history image)
                k newer older Hk HSk) as Hle.
  simpl in Hle. lia.
Qed.
End HistoryFacts.

Definition image_at (created : Z) (id : string) : Image :=
  {| Id := id; Layers := ["/layers/" +:+ id]; Created := created;
     Parent := "" |}.

Lemma History_Add_sorted_witness :
  History_Add [image_at 5 "base:a"] (image_at 9 "base:b") !! 0%nat
    = Some (image_at 9 "base:b") /\
  History_Add [image_at 5 "base:a"] (image_at 9 "base:b") !! 1%nat
    = Some (image_at 5 "base:a") /\
  Created (image_at 9 "base:b") >= Created (image_at 5 "base:a").
Proof.
  split; [reflexivity|]. split; [reflexivity|].
  apply (proj2 (History_Add_sorted [image_at 5 "base:a"]
                  (image_at 9 "base:b")) 0%nat); reflexivity.
Defined.

(** ** Loading and saving *)

Ltac unfold_monad :=
  unfold bind, ret, panic, get_index, put_index in *; simpl in *.

(** The world after a read of [path]: the files are as they were. *)
Definition read_world (path : string) (w : World) : World :=
  {| files := files w; faults := (next_fault (faults w)).2;
     trace := trace w ++ [OpReadFile path] |}.

(** The index in memory once [document] has been decoded into it. *)
Definition merged (document i : Index) : Index :=
  {| Path := Path i; ByName := ByName document ∪ ByName i;
     ById := ById document ∪ ById i |}.

(** [load] never panics, reads the file once and changes no file; it
    succeeds on a missing file, leaving the index in memory as it was, and
    on a document, which it merges into the index; it fails, leaving the
    index as it was, when the read fails or the file holds no document. *)
Lemma Index_load_spec (st : State) :
  exists (err : option error) (i' : Index),
    Index_load st
    = (Val err, {| index := i';
                   world := read_world (Path (index st)) (world st) |}) /\
    Path i' = Path (index st) /\
    match (next_fault (faults (world st))).1,
          files (world st) !! Path (index st) with
    | NoFault, None => err = None /\ i' = index st
    | NoFault, Some (JsonDoc document) =>
        err = None /\ i' = merged document (index st)
    | NoFault, Some _ => err = Some json_SyntaxError /\ i' = index st
    | _, _ =>
        err = Some (os_PathError "open" (Path (index st)) "permission denied")
        /\ i' = index st
    end.
Proof.
  destruct st as [i [fs faults tr]].
  unfold Index_load, ioutil_ReadFile, json_Unmarshal, read_world, merged.
  unfold_monad.
  destruct faults as [|[] rest]; simpl;
    try (destruct (fs !! Path i) as [[doc|doc|raw]|]; simpl);
    eexists _, _; repeat split; by destruct i.
Qed.

Lemma Index_load_world st r st' :
  Index_load st = (r, st') ->
  world st' = read_world (Path (index st)) (world st) /\
  Path (index st') = Path (index st) /\
  exists err, r = Val err /\ (is_Some err -> index st' = index st).
Proof.
  intros Hload.
  destruct (Index_load_spec st) as (err & i' & Heq & Hpath & Hcase).
  rewrite Heq in Hload. simplify_eq/=. repeat split; [done|].
  exists err. split; [done|]. intros [e ->].
  destruct (next_fault (faults (world st))).1;
    destruct (files (world st) !! Path (index st)) as [[]|];
    destruct Hcase; by simplify_eq.
Qed.

(** The world after a write of [doc] to [path]. *)
Definition write_world (path : string) (doc : Index) (w : World) : World :=
  {| files :=
       match (next_fault (faults w)).1 with
       | NoFault => <[path := JsonDoc doc]> (files w)
       | Fail => files w
       | FailPartial => <[path := Truncated doc]> (files w)
       end;
     faults := (next_fault (faults w)).2;
     trace := trace w ++ [OpWriteFile path (JsonDoc doc)] |}.

Definition write_error (path : string) (w : World) : option error :=
  match (next_fault (faults w)).1 with
  | NoFault => None
  | Fail => Some (os_PathError "open" path "permission denied")
  | FailPartial => Some (os_PathError "write" path "no space left on device")
  end.

(** [save] returns the error of [json.Marshal], having touched no file,
    or is one [ioutil.WriteFile] of the whole index to its path. *)
Lemma Index_save_spec `{json : Json} (st : State) :
  Index_save st =
    match json_Marshal_error (index st) with
    | Some err => (Val (Some err), st)
    | None =>
        (Val (write_error (Path (index st)) (world st)),
         {| index := index st;
            world := write_world (Path (index st)) (index st) (world st) |})
    end.
Proof.
  destruct st as [i [fs faults tr]].
  unfold Index_save, json_Marshal, ioutil_WriteFile, write_world, write_error.
  unfold_monad. destruct (json_Marshal_error i); [done|].
  by destruct faults as [|[] rest].
Qed.

Lemma Index_save_index `{json : Json} (st : State) :
  index (Index_save st).2 = index st.
Proof.
  rewrite Index_save_spec. by destruct (json_Marshal_error (index st)).
Qed.

(** The file of the index holds the index in memory. *)
Definition persisted (st : State) : Prop :=
  files (world st) !! Path (index st) = Some (JsonDoc (index st)).

Lemma Index_save_persisted `{json : Json} st st' :
  Index_save st = (Val None, st') -> index st' = index st /\ persisted st'.
Proof.
  rewrite Index_save_spec.
  destruct (json_Marshal_error (index st)); [done|].
  intros Heq. simplify_eq/=.
  split; [done|]. unfold persisted, write_world, write_error in *; simpl.
  destruct (next_fault _).1; simplify_eq/=. apply lookup_insert_eq.
Qed.

(** ** Reads hide a failed load (C10) and what [load] tolerates (C7) *)

Definition index_path : string := "/var/lib/docker/images/index.json".

(** A state with nothing traced yet. *)
Definition state_of (i : Index) (fs : gmap string FileData)
    (fts : list IOFault) : State :=
  {| index := i; world := {| files := fs; faults := fts; trace := [] |} |}.

(** The file of the index exists and the next [load] cannot use it: the
    read fails, or what is read is no document. *)
Definition unloadable (st : State) : Prop :=
  exists data, files (world st) !! Path (index st) = Some data /\
    ((next_fault (faults (world st))).1 <> NoFault \/
     forall document, data <> JsonDoc document).

Lemma unloadable_load st :
  unloadable st ->
  exists err st', Index_load st = (Val (Some err), st') /\
                  index st' = index st /\
                  files (world st') = files (world st).
Proof.
  intros (data & Hfile & Hbad).
  destruct (Index_load_spec st) as (err & i' & Heq & Hpath & Hcase).
  rewrite Hfile in Hcase.
  destruct (next_fault (faults (world st))).1 eqn:Hfault.
  - destruct Hbad as [|Hbad]; [done|].
    destruct data as [document| |]; [by destruct (Hbad document)|..];
      destruct Hcase as [-> ->]; eexists _, _; (split; [done|]); by destruct st.
  - destruct Hcase as [-> ->]; eexists _, _; (split; [done|]); by destruct st.
  - destruct Hcase as [-> ->]; eexists _, _; (split; [done|]); by destruct st.
Qed.

Section Reads.
Context `{sorter : Sort}.

(** C10.  When the index file exists but cannot be loaded, [load]
    fails, yet [Find] returns absent and [Names] the empty list: neither
    reports the error, so at these two reads a failed load looks like
    an entity that does not exist. *)
Theorem Find_Names_hide_load_failure (st : State) (idOrName : string) :
  unloadable st ->
  exists err st',
    Index_load st = (Val (Some err), st') /\
    Index_Find idOrName st = (Val None, st') /\
    Index_Names st = (Val [], st').
Proof.
  intros Hbad.
  destruct (unloadable_load st Hbad) as (err & st' & Hload & _).
  exists err, st'. split; [done|].
  unfold Index_Find, Index_Names, bind. by rewrite Hload.
Qed.
End Reads.

Definition sample_index : Index :=
  {| Path := index_path;
     ByName := {[ "base" := [image_at 5 "base:a"] ]};
     ById := {[ "base:a" := image_at 5 "base:a" ]} |}.

(** The index in memory knows ["base"], its file was cut short. *)
Definition truncated_state : State :=
  state_of sample_index {[ index_path := Truncated sample_index ]} [].

Lemma truncated_state_unloadable : unloadable truncated_state.
Proof. exists (Truncated sample_index). split; [reflexivity|]. by right. Defined.

Lemma Find_Names_hide_load_failure_witness :
  unloadable truncated_state /\
  exists err st',
    Index_load truncated_state = (Val (Some err), st') /\
    Index_Find "base" truncated_state = (Val None, st') /\
    Index_Names truncated_state = (Val [], st').
Proof.
  split; [exact truncated_state_unloadable|].
  exact (Find_Names_hide_load_failure truncated_state "base"
           truncated_state_unloadable).
Defined.

Lemma sort_Sort_nil `{Sort} {A : Type} (less : A -> A -> bool) :
  sort_Sort less [] = [].
Proof. apply Permutation_nil. apply sort_Sort_Permutation. Qed.

(** The claim of C7 on one state: [load] succeeds and the index it
    leaves is empty. *)
Definition load_yields_empty (st : State) : Prop :=
  exists st', Index_load st = (Val None, st') /\
              ByName (index st') = ∅ /\ ById (index st') = ∅.

(** A fresh index whose file was cut short: [load] reports the error. *)
Lemma load_rejects_truncated_file :
  ~ load_yields_empty
      (state_of (NewIndex index_path)
                {[ index_path := Truncated sample_index ]} []).
Proof.
  intros (st' & Hload & _). vm_compute in Hload. discriminate Hload.
Qed.

Section LoadTolerance.
Context `{json : Json} `{future : Future} `{sorter : Sort}
        `{matcher : Regexp}.

(** The state after a [load] that left the index in memory alone. *)
Definition after_read (st : State) : State :=
  {| index := index st;
     world := read_world (Path (index st)) (world st) |}.

(** C7, amended.  With a read that does not fail: when the index file
    is missing, [load] succeeds and leaves the index in memory as it
    was, so an index that is empty in memory is an empty catalog ([Find]
    returns absent, [Names] nothing, [Delete] reports no such image);
    when the file is present but holds no document (truncated, not
    JSON), [load] fails with the decoding error, the index in memory is
    as it was, and [Add], [Copy], [Rename], [Delete] and [DeleteMatch]
    return that error. *)
Theorem load_tolerates_missing_only (st : State) :
  (next_fault (faults (world st))).1 = NoFault ->
  (files (world st) !! Path (index st) = None ->
     Index_load st = (Val None, after_read st) /\
     (ByName (index st) = ∅ -> ById (index st) = ∅ ->
      forall idOrName,
        Index_Find idOrName st = (Val None, after_read st) /\
        Index_Names st = (Val [], after_read st) /\
        Index_Delete idOrName st
        = (Val (Some (errors_New ("No such image: " +:+ idOrName))),
           after_read st))) /\
  (forall data,
     files (world st) !! Path (index st) = Some data ->
     (forall document, data <> JsonDoc document) ->
     Index_load st = (Val (Some json_SyntaxError), after_read st) /\
     (forall name image,
        Index_Add name image st
        = (Val (Some json_SyntaxError), after_read st)) /\
     (forall now src dst, src <> "" -> dst <> "" ->
        Index_Copy now src dst st
        = (Val (Err json_SyntaxError), after_read st)) /\
     (forall oldName newName,
        Index_Rename oldName newName st
        = (Val (Some json_SyntaxError), after_read st)) /\
     (forall name,
        Index_Delete name st
        = (Val (Some json_SyntaxError), after_read st)) /\
     (forall pattern,
        Index_DeleteMatch pattern st
        = (Val (Some json_SyntaxError), after_read st))).
Proof.
  intros Hfault.
  destruct (Index_load_spec st) as (err & i' & Heq & Hpath & Hcase).
  rewrite Hfault in Hcase. split.
  - intros Hfile. rewrite Hfile in Hcase. destruct Hcase as [-> ->].
    split; [done|]. intros HbyName HbyId idOrName.
    unfold Index_Find, Index_Names, Index_Delete, bind.
    rewrite Heq. unfold after_read. unfold_monad.
    rewrite HbyName, HbyId, !lookup_empty, map_to_list_empty. simpl.
    rewrite sort_Sort_nil. by repeat split.
  - intros data Hfile Hbad. rewrite Hfile in Hcase.
    assert (err = Some json_SyntaxError /\ i' = index st) as [-> ->].
    { destruct data as [document| |]; [by destruct (Hbad document)|done..]. }
    fold (after_read st) in Heq.
    unfold Index_Add, Index_Copy, Index_Rename, Index_Delete,
      Index_DeleteMatch, bind.
    rewrite Heq. repeat split; try done.
    intros now src dst Hsrc Hdst.
    apply String.eqb_neq in Hsrc, Hdst. rewrite Hsrc, Hdst. simpl.
    by rewrite Heq.
Qed.
End LoadTolerance.

(** Stand-ins for the interfaces, to run the operations on examples. *)
#[local] Instance sample_Future : Future :=
  {| ComputeId := fun content => Ok ("#" +:+ content) |}.

#[local] Instance literal_Regexp : Regexp :=
  {| regexp_MatchString := fun pattern s => Ok (String.eqb pattern s) |}.

(** An encoder for times counted in seconds from 1970: it writes the
    years 0 to 9999 and no other. *)
Definition year_in_range (t : Z) : bool :=
  (-62167219200 <=? t) && (t <? 253402300800).

Definition times_in_range (i : Index) : bool :=
  forallb (fun entry => forallb (fun image => year_in_range (Created image))
                                entry.2)
          (map_to_list (ByName i))
  && forallb (fun entry => year_in_range (Created entry.2))
             (map_to_list (ById i)).

#[local] Instance sample_Json : Json :=
  {| json_Marshal_error := fun i =>
       if times_in_range i then None
       else Some (json_MarshalerError
                    "Time.MarshalJSON: year outside of range [0,9999]") |}.

(** A fresh index with no file. *)
Definition fresh_state : State := state_of (NewIndex index_path) ∅ [].

Lemma load_tolerates_missing_only_witness :
  (next_fault (faults (world fresh_state))).1 = NoFault /\
  files (world fresh_state) !! Path (index fresh_state) = None /\
  Index_load fresh_state = (Val None, after_read fresh_state) /\
  files (world truncated_state) !! Path (index truncated_state)
    = Some (Truncated sample_index) /\
  Index_Delete "base" truncated_state
    = (Val (Some json_SyntaxError), after_read truncated_state).
Proof.
  split; [reflexivity|]. split; [reflexivity|]. split.
  - apply (proj1 (load_tolerates_missing_only fresh_state eq_refl)).
    reflexivity.
  - split; [reflexivity|].
    apply (proj2 (load_tolerates_missing_only truncated_state eq_refl)
             (Truncated sample_index)); [reflexivity|discriminate].
Defined.

(** ** Adding to the index (C3) *)

Section AddFacts.
Context `{json : Json} `{sorter : Sort}.

(** The index once [image] is filed under [name], whose history was
    [history]. *)
Definition filed (name : string) (image : Image) (history : list Image)
    (i : Index) : Index :=
  {| Path := Path i;
     ByName := <[name := History_Add history image]> (ByName i);
     ById := <[Id image := image]> (ById i) |}.

Lemma Index_Add_store_spec name image history st :
  ByName (index st) !! name = Some history ->
  Index_Add_store name image st
  = Index_save {| index := filed name image history (index st);
                  world := world st |}.
Proof.
  intros Hname. unfold Index_Add_store. unfold_monad. by rewrite Hname.
Qed.

(** An image strictly newer than all the others comes first. *)
Lemma History_Add_newest history image :
  Forall (fun older => Created older < Created image) history ->
  exists rest, History_Add history image = image :: rest.
Proof.
  intros Holder.
  pose proof (History_Add_Permutation history image) as Hperm.
  pose proof (History_Add_Sorted history image) as Hsorted.
  destruct (History_Add history image) as [|first rest].
  { by apply Permutation_nil_cons in Hperm. }
  exists rest. f_equal.
  assert (Hin : image ∈ first :: rest) by (rewrite Hperm; left).
  assert (Hfirst : first ∈ image :: history) by (rewrite <- Hperm; left).
  apply elem_of_cons in Hfirst as [Heq|Hfirst]; [done|].
  rewrite Forall_forall in Holder. apply Holder in Hfirst.
  apply elem_of_cons in Hin as [Heq|Hin]; [done|].
  apply Sorted_StronglySorted in Hsorted; [|intros x y z; lia].
  apply StronglySorted_inv in Hsorted as [_ Hall].
  rewrite Forall_forall in Hall. apply Hall in Hin. lia.
Qed.

(** An image older than one of the history does not come first, whatever
    [sort.Sort] does with the others. *)
Lemma History_Add_not_newest history image newer :
  newer ∈ history -> Created image < Created newer ->
  forall rest, History_Add history image <> image :: rest.
Proof.
  intros Hin Hlt rest Heq.
  pose proof (History_Add_Permutation history image) as Hperm.
  pose proof (History_Add_Sorted history image) as Hsorted.
  rewrite Heq in Hperm, Hsorted.
  apply Sorted_StronglySorted in Hsorted; [|intros x y z; lia].
  apply StronglySorted_inv in Hsorted as [_ Hall].
  rewrite Forall_forall in Hall.
  assert (Hnewer : newer ∈ image :: rest) by (rewrite Hperm; by right).
  apply elem_of_cons in Hnewer as [->|Hnewer]; [lia|].
  apply Hall in Hnewer. lia.
Qed.

(** C3, amended.  Once its reload of the index has succeeded,
    [Index.Add(name, image)] returns success without writing anything
    when the newest image of the name has the id of [image]; the index
    in memory is the reloaded one.  When the name is new, or its history
    has an image with another id on top, [image] is added to the history,
    which is sorted again by creation time, newest first, so that
    [image] is at position 0 when it is strictly newer than the images
    already there; [image] is registered in [ById] and the index is
    saved: it is on disk when [Add] reports success. *)
Theorem Index_Add_spec (name : string) (image : Image) (st st1 : State) :
  Index_load st = (Val None, st1) ->
  (forall latest rest,
      ByName (index st1) !! name = Some (latest :: rest) ->
      Id latest = Id image ->
      Index_Add name image st = (Val None, st1) /\
      files (world st1) = files (world st)) /\
  (forall history,
      (ByName (index st1) !! name = None /\ history = []) \/
      (ByName (index st1) !! name = Some history /\
       exists latest rest, history = latest :: rest /\
                           Id latest <> Id image) ->
      let i' := filed name image history (index st1) in
      Index_Add name image st
      = Index_save {| index := i'; world := world st1 |} /\
      index (Index_Add name image st).2 = i' /\
      ((Index_Add name image st).1 = Val None ->
       persisted (Index_Add name image st).2) /\
      ById i' !! Id image = Some image /\
      ByName i' !! name = Some (History_Add history image) /\
      History_Add history image ≡ₚ image :: history /\
      (Forall (fun older => Created older < Created image) history ->
       exists rest, ByName i' !! name = Some (image :: rest))).
Proof.
  intros Hload. split.
  - intros latest rest Hname Hid.
    split; [|by apply Index_load_world in Hload as [-> _]].
    unfold Index_Add, bind. rewrite Hload. unfold_monad.
    rewrite Hname. apply String.eqb_eq in Hid. by rewrite Hid.
  - intros history Hcase i'.
    assert (Hadd : Index_Add name image st
                   = Index_save {| index := i'; world := world st1 |}).
    { unfold Index_Add, bind. rewrite Hload. unfold_monad.
      destruct Hcase as [[Hname ->]|(Hname & latest & rest & -> & Hid)];
        rewrite Hname.
      - rewrite Index_Add_store_spec with (history := []);
          [|apply lookup_insert_eq].
        unfold i', filed; simpl. by rewrite insert_insert_eq.
      - apply String.eqb_neq in Hid. rewrite Hid.
        destruct st1. by apply Index_Add_store_spec. }
    split; [done|]. rewrite Hadd.
    split; [apply Index_save_index|].
    split.
    { intros Hok. destruct (Index_save _) as [r st'] eqn:Hsave.
      simpl in Hok. subst r. by apply Index_save_persisted in Hsave as [_ ?]. }
    split; [apply lookup_insert_eq|].
    split; [apply lookup_insert_eq|].
    split; [apply History_Add_Permutation|].
    intros Holder. destruct (History_Add_newest history image Holder)
      as [rest Hrest].
    exists rest. simpl. rewrite <- Hrest. apply lookup_insert_eq.
Qed.
End AddFacts.

(** The index in memory and its file agree: ["base"] has one image. *)
Definition synced_state : State :=
  state_of sample_index {[ index_path := JsonDoc sample_index ]} [].

(** The claim of C3 on one call: after [Add], [image] is the newest
    entry, position 0, of the history of [name]. *)
Definition Add_makes_newest `{Json} `{Sort} (name : string) (image : Image)
    (st : State) : Prop :=
  exists rest,
    ByName (index (Index_Add name image st).2) !! name = Some (image :: rest).

(** ["base"] holds an image created at 5; the image added was created at
    3 and has another id.  [Add] succeeds and files it second. *)
Lemma Add_older_image_not_newest :
  ByName (index (Index_load synced_state).2) !! "base"
    = Some [image_at 5 "base:a"] /\
  Id (image_at 5 "base:a") <> Id (image_at 3 "base:b") /\
  (Index_Add "base" (image_at 3 "base:b") synced_state).1 = Val None /\
  ~ Add_makes_newest "base" (image_at 3 "base:b") synced_state.
Proof.
  split; [reflexivity|]. split; [discriminate|]. split; [reflexivity|].
  intros [rest Hrest]. vm_compute in Hrest. discriminate Hrest.
Qed.

Lemma Index_Add_spec_witness :
  Index_load synced_state = (Val None, (Index_load synced_state).2) /\
  (ByName (index (Index_load synced_state).2) !! "base"
     = Some [image_at 5 "base:a"] /\
   exists latest rest, [image_at 5 "base:a"] = latest :: rest /\
                       Id latest <> Id (image_at 9 "base:b")) /\
  Forall (fun older => Created older < Created (image_at 9 "base:b"))
         [image_at 5 "base:a"] /\
  exists rest,
    ByName (filed "base" (image_at 9 "base:b") [image_at 5 "base:a"]
                  (index (Index_load synced_state).2)) !! "base"
    = Some (image_at 9 "base:b" :: rest).
Proof.
  assert (Hcase :
    ByName (index (Index_load synced_state).2) !! "base"
      = Some [image_at 5 "base:a"] /\
    exists latest rest, [image_at 5 "base:a"] = latest :: rest /\
                        Id latest <> Id (image_at 9 "base:b")).
  { split; [reflexivity|]. eexists _, _. split; [reflexivity|discriminate]. }
  assert (Holder :
    Forall (fun older => Created older < Created (image_at 9 "base:b"))
           [image_at 5 "base:a"]).
  { repeat constructor. }
  split; [reflexivity|]. split; [exact Hcase|]. split; [exact Holder|].
  apply (proj2 (Index_Add_spec "base" (image_at 9 "base:b") synced_state
                  (Index_load synced_state).2 eq_refl)
               [image_at 5 "base:a"] (or_intror Hcase)).
  exact Holder.
Defined.

(** ** Importing a layer (C2) *)

Section StoreFacts.
Context `{json : Json} `{future : Future} `{sorter : Sort}
        `{layerstore : LayerStore}.

Definition parent_layers (parent : option Image) : list string :=
  match parent with
  | Some p => Layers p
  | None => []
  end.

Definition parent_id (parent : option Image) : string :=
  match parent with
  | Some p => Id p
  | None => ""
  end.

Lemma Store_Import_unfold now name archive parent ls :
  Store_Import now name archive parent ls =
    match AddLayer archive ls with
    | (Err err, ls') => (ret (Err err), ls')
    | (Ok layer, ls') =>
        (Store_Create now name (parent_id parent)
                      ([layer] ++ parent_layers parent), ls')
    end.
Proof.
  unfold Store_Import.
  destruct (AddLayer archive ls) as [[layer|err] ls']; by destruct parent.
Qed.

(** C2.  An image that [Store.Import(name, archive, parent)] returns
    has the layers [[newLayer] ++ parent.layers], just [[newLayer]]
    without a parent, where [newLayer] is what the layer store returned
    for the archive, and its parent field is [parent.id], empty without
    a parent.  [Import] does return that image whenever the layer store
    accepts the archive, the id can be generated and the index accepts
    the image. *)
Theorem Store_Import_layers (now : Z) (name : string) (archive : Archive)
    (parent : option Image) (ls : Layers_state) :
  (forall image st st',
      (Store_Import now name archive parent ls).1 st
      = (Val (Ok image), st') ->
      exists newLayer,
        (AddLayer archive ls).1 = Ok newLayer /\
        Layers image = [newLayer] ++ parent_layers parent /\
        Parent image = parent_id parent /\
        generateImageId name (Layers image) = Ok (Id image)) /\
  (forall newLayer id st st',
      (AddLayer archive ls).1 = Ok newLayer ->
      generateImageId name ([newLayer] ++ parent_layers parent) = Ok id ->
      let image := {| Id := id;
                      Layers := [newLayer] ++ parent_layers parent;
                      Created := now; Parent := parent_id parent |} in
      Index_Add name image st = (Val None, st') ->
      (Store_Import now name archive parent ls).1 st
      = (Val (Ok image), st')).
Proof.
  rewrite Store_Import_unfold. unfold Store_Create, NewImage.
  destruct (AddLayer archive ls) as [[newLayer|err] ls']; simpl; split.
  - intros image st st' Himport. exists newLayer. split; [done|].
    destruct (generateImageId name (newLayer :: parent_layers parent))
      as [id|err] eqn:Hid; unfold_monad; [|done].
    destruct (Index_Add _ _ st) as [[[err|]|msg] st1]; simplify_eq/=.
    by rewrite Hid.
  - intros newLayer' id st st' [= <-] Hid Hadd. rewrite Hid.
    unfold_monad. by rewrite Hadd.
  - intros image st st' Himport. by unfold_monad.
  - by intros newLayer id st st' Heq.
Qed.
End StoreFacts.

(** A layer store that files an archive under the digest it is named
    by. *)
#[local] Instance sample_LayerStore : LayerStore := {|
  Archive := string;
  Layers_state := list string;
  AddLayer := fun archive ls =>
    (Ok ("/var/lib/docker/images/layers/" +:+ archive), archive :: ls)
|}.

Lemma Store_Import_layers_witness :
  (Store_Import 9 "snap" "4f2a" (Some (image_at 5 "base:a")) []).1 synced_state
  = (Val (Ok {| Id := "snap:#4f2abase:a";
                Layers := ["/var/lib/docker/images/layers/4f2a";
                           "/layers/base:a"];
                Created := 9; Parent := "base:a" |}),
     ((Store_Import 9 "snap" "4f2a" (Some (image_at 5 "base:a")) []).1
        synced_state).2) /\
  exists newLayer,
    (AddLayer "4f2a" []).1 = Ok newLayer /\
    Layers {| Id := "snap:#4f2abase:a";
              Layers := ["/var/lib/docker/images/layers/4f2a";
                         "/layers/base:a"];
              Created := 9; Parent := "base:a" |}
    = [newLayer] ++ parent_layers (Some (image_at 5 "base:a")).
Proof.
  assert (Hrun :
    (Store_Import 9 "snap" "4f2a" (Some (image_at 5 "base:a")) []).1
      synced_state
    = (Val (Ok {| Id := "snap:#4f2abase:a";
                  Layers := ["/var/lib/docker/images/layers/4f2a";
                             "/layers/base:a"];
                  Created := 9; Parent := "base:a" |}),
       ((Store_Import 9 "snap" "4f2a" (Some (image_at 5 "base:a")) []).1
          synced_state).2)) by (vm_compute; reflexivity).
  split; [exact Hrun|].
  destruct (proj1 (Store_Import_layers (layerstore := sample_LayerStore) 9 "snap" "4f2a"
                     (Some (image_at 5 "base:a")) []) _ _ _ Hrun)
    as (newLayer & Hlayer & Hlayers & _).
  exists newLayer. split; [exact Hlayer|exact Hlayers].
Defined.

(** ** Empty names (C6) *)

(** The claim of C6 on one call: the operation fails. *)
Definition rejected (r : outcome (option error)) : Prop :=
  exists err, r = Val (Some err).

(** [Add] files an image under the empty name like under any other. *)
Lemma Add_accepts_empty_name :
  (Index_Add "" (image_at 5 ":a") fresh_state).1 = Val None /\
  ByName (index (Index_Add "" (image_at 5 ":a") fresh_state).2) !! ""
    = Some [image_at 5 ":a"] /\
  ~ rejected (Index_Add "" (image_at 5 ":a") fresh_state).1.
Proof.
  split; [reflexivity|]. split; [reflexivity|].
  intros [err Herr]. vm_compute in Herr. discriminate Herr.
Qed.

Section EmptyNames.
Context `{json : Json} `{future : Future} `{sorter : Sort}.

(** C6, amended.  [Copy] with an empty source or destination fails with
    the error "Illegal image name" before it loads anything: the index, in
    memory and on disk, is as it was.  The other operations look the empty
    string up like any other: when the reloaded index has no image under
    it, [Find] returns absent, and [Delete] and [Rename] of it fail with
    their no-such-image errors, having written nothing. *)
Theorem empty_name_handling (st : State) :
  (forall now srcNameOrId dstName,
      srcNameOrId = "" \/ dstName = "" ->
      Index_Copy now srcNameOrId dstName st
      = (Val (Err (errors_New "Illegal image name")), st)) /\
  (forall st1,
      Index_load st = (Val None, st1) ->
      ById (index st1) !! "" = None ->
      ByName (index st1) !! "" = None ->
      Index_Find "" st = (Val None, st1) /\
      Index_Delete "" st
      = (Val (Some (errors_New "No such image: ")), st1) /\
      (forall newName,
          Index_Rename "" newName st
          = (Val (Some (errors_New "Can't rename : no such image.")), st1)) /\
      files (world st1) = files (world st)).
Proof.
  split.
  - intros now src dst Hempty. unfold Index_Copy.
    destruct Hempty as [-> | ->]; simpl; [done|].
    by rewrite orb_true_r.
  - intros st1 Hload HbyId HbyName.
    unfold Index_Find, Index_Delete, Index_Rename, bind.
    rewrite Hload. unfold_monad. rewrite HbyId, HbyName.
    repeat split. by apply Index_load_world in Hload as [-> _].
Qed.
End EmptyNames.

Lemma empty_name_handling_witness :
  Index_Copy 9 "" "copy" synced_state
  = (Val (Err (errors_New "Illegal image name")), synced_state) /\
  Index_load synced_state = (Val None, (Index_load synced_state).2) /\
  Index_Delete "" synced_state
  = (Val (Some (errors_New "No such image: ")), (Index_load synced_state).2).
Proof.
  split.
  - apply (proj1 (empty_name_handling synced_state)). by left.
  - split; [reflexivity|].
    apply (proj2 (empty_name_handling synced_state)
             (Index_load synced_state).2); reflexivity.
Defined.

(** ** How the index is written (C8) *)

(** An operation on [path] itself: a read, or a write in place. *)
Definition direct (path : string) (op : FsOp) : Prop :=
  op = OpReadFile path \/ exists data, op = OpWriteFile path data.

(** From [st] to [st'] the index kept its path and the file system saw
    only direct operations on it. *)
Definition in_place (st st' : State) : Prop :=
  Path (index st') = Path (index st) /\
  exists ops, trace (world st') = trace (world st) ++ ops /\
              Forall (direct (Path (index st))) ops.

Lemma in_place_refl st : in_place st st.
Proof. split; [done|]. exists []. by rewrite app_nil_r. Qed.

Lemma in_place_trans st1 st2 st3 :
  in_place st1 st2 -> in_place st2 st3 -> in_place st1 st3.
Proof.
  intros (Hp1 & ops1 & Ht1 & Hd1) (Hp2 & ops2 & Ht2 & Hd2).
  split; [congruence|]. exists (ops1 ++ ops2).
  rewrite Ht2, Ht1, app_assoc. split; [done|].
  rewrite Hp1 in Hd2. by apply Forall_app.
Qed.

Lemma in_place_bind {A B : Type} (c : M A) (k : A -> M B) st :
  in_place st (c st).2 ->
  (forall a st', c st = (Val a, st') -> in_place st' (k a st').2) ->
  in_place st (bind c k st).2.
Proof.
  unfold bind. destruct (c st) as [[a|msg] st']; simpl; [|done].
  intros Hc Hk. eapply in_place_trans; eauto.
Qed.

Lemma in_place_put i st :
  Path i = Path (index st) -> in_place st (put_index i st).2.
Proof. intros Hpath. split; [done|]. exists []. by rewrite app_nil_r. Qed.

Lemma in_place_load st : in_place st (Index_load st).2.
Proof.
  destruct (Index_load st) as [r st'] eqn:Hload.
  apply Index_load_world in Hload as (Hworld & Hpath & _).
  split; [done|]. exists [OpReadFile (Path (index st))]. simpl.
  rewrite Hworld. split; [done|]. repeat constructor.
Qed.

Lemma in_place_save `{json : Json} st : in_place st (Index_save st).2.
Proof.
  rewrite Index_save_spec.
  destruct (json_Marshal_error (index st)); [apply in_place_refl|].
  split; [done|].
  exists [OpWriteFile (Path (index st)) (JsonDoc (index st))].
  split; [done|]. constructor; [|done]. right. by eexists.
Qed.

(** After its load, an operation goes on from the state the load left. *)
Ltac after_load :=
  apply in_place_bind; [apply in_place_load|];
  intros [err|] ? _; [apply in_place_refl|].

Ltac with_index :=
  apply in_place_bind; [apply in_place_refl|];
  intros ? ? [= <- <-].

Lemma in_place_Find idOrName st : in_place st (Index_Find idOrName st).2.
Proof.
  unfold Index_Find. after_load. with_index.
  destruct (ById _ !! _); [apply in_place_refl|].
  destruct (ByName _ !! _) as [[|? ?]|]; apply in_place_refl.
Qed.

Lemma DeleteMatch_loop_Path `{matcher : Regexp} pattern entries i :
  Path (DeleteMatch_loop pattern entries i).1 = Path i.
Proof.
  revert i. induction entries as [|[name history] rest IH]; intros i;
    simpl; [done|].
  destruct (regexp_MatchString pattern name) as [[|]|err]; [|done..].
  by rewrite IH.
Qed.

Section InPlace.
Context `{json : Json} `{future : Future} `{sorter : Sort}
        `{matcher : Regexp}.

Lemma in_place_Add_store name image st :
  in_place st (Index_Add_store name image st).2.
Proof.
  unfold Index_Add_store. with_index.
  destruct (ByName _ !! _); [|apply in_place_refl].
  apply in_place_bind; [by apply in_place_put|].
  intros _ ? _. apply in_place_save.
Qed.

Lemma in_place_Add name image st : in_place st (Index_Add name image st).2.
Proof.
  unfold Index_Add. after_load. with_index.
  destruct (ByName _ !! _) as [[|latest rest]|].
  - apply in_place_refl.
  - destruct (String.eqb _ _); [apply in_place_refl|].
    apply in_place_Add_store.
  - apply in_place_bind; [by apply in_place_put|].
    intros _ ? _. apply in_place_Add_store.
Qed.

Lemma in_place_Copy now srcNameOrId dstName st :
  in_place st (Index_Copy now srcNameOrId dstName st).2.
Proof.
  unfold Index_Copy. destruct (_ || _); [apply in_place_refl|].
  after_load.
  apply in_place_bind; [apply in_place_Find|].
  intros [src|] st1 _; [|apply in_place_refl].
  destruct (NewImage _ _ _ _) as [dst|err]; [|apply in_place_refl].
  apply in_place_bind; [apply in_place_Add|].
  intros [err|] st2 _; [apply in_place_refl|].
  apply in_place_bind; [apply in_place_save|].
  intros [err|] st3 _; apply in_place_refl.
Qed.

Lemma in_place_Rename oldName newName st :
  in_place st (Index_Rename oldName newName st).2.
Proof.
  unfold Index_Rename. after_load. with_index.
  destruct (ByName _ !! oldName) as [history|]; [|apply in_place_refl].
  destruct (ByName _ !! newName); [apply in_place_refl|].
  destruct (delete _ _ !! newName) as [moved|].
  - destruct (Rename_ids _ _ _ _) as [[moved' byId] err].
    apply in_place_bind; [by apply in_place_put|].
    intros _ ? _. destruct err; [apply in_place_refl|apply in_place_save].
  - apply in_place_bind; [by apply in_place_put|].
    intros _ ? _. apply in_place_refl.
Qed.

Lemma in_place_Delete name st : in_place st (Index_Delete name st).2.
Proof.
  unfold Index_Delete. after_load. with_index.
  destruct (ByName _ !! name) as [history|]; [|apply in_place_refl].
  apply in_place_bind; [by apply in_place_put|].
  intros _ ? _. apply in_place_save.
Qed.

Lemma in_place_DeleteMatch pattern st :
  in_place st (Index_DeleteMatch pattern st).2.
Proof.
  unfold Index_DeleteMatch. after_load. with_index.
  destruct (DeleteMatch_loop _ _ _) as [i' err] eqn:Hloop.
  apply in_place_bind.
  - apply in_place_put.
    change i' with (i', err).1. rewrite <- Hloop.
    apply DeleteMatch_loop_Path.
  - intros _ ? _. destruct err; [apply in_place_refl|apply in_place_save].
Qed.
End InPlace.

(** An operation that reports success has left the index on disk. *)
Definition persists {A : Type} (ok : A -> Prop) (c : M A) (st : State)
  : Prop :=
  forall a, (c st).1 = Val a -> ok a -> persisted (c st).2.

Definition no_error (err : option error) : Prop := err = None.

Definition is_Ok {A : Type} (r : result A) : Prop := exists a, r = Ok a.

Lemma persists_bind {A B : Type} (ok : B -> Prop) (c : M A) (k : A -> M B)
    st :
  (forall a st', c st = (Val a, st') -> persists ok (k a) st') ->
  persists ok (bind c k) st.
Proof.
  unfold persists, bind. destruct (c st) as [[a|msg] st']; simpl; [|done].
  intros Hk. by apply Hk.
Qed.

Lemma persists_save `{json : Json} st : persists no_error Index_save st.
Proof.
  intros err Hval ->. destruct (Index_save st) as [r st'] eqn:Hsave.
  simpl in *. subst r. by apply Index_save_persisted in Hsave as [_ ?].
Qed.

Lemma persists_error {A : Type} (ok : A -> Prop) (a : A) st :
  ~ ok a -> persists ok (ret a) st.
Proof. intros Hno b [= <-] Hok. done. Qed.

Lemma persists_panic {A : Type} (ok : A -> Prop) msg st :
  persists ok (panic msg) st.
Proof. by intros a Hval. Qed.

Lemma not_no_error err : ~ no_error (Some err).
Proof. done. Qed.

Lemma not_is_Ok {A : Type} err : ~ is_Ok (@Err A err).
Proof. by intros [a Ha]. Qed.

Section Persist.
Context `{json : Json} `{future : Future} `{sorter : Sort}
        `{matcher : Regexp}.

Lemma persists_Rename oldName newName st :
  persists no_error (Index_Rename oldName newName) st.
Proof.
  unfold Index_Rename. apply persists_bind.
  intros [err|] st1 _; [apply persists_error, not_no_error|].
  apply persists_bind. intros i ? _.
  destruct (ByName i !! oldName) as [history|];
    [|apply persists_error, not_no_error].
  destruct (ByName i !! newName); [apply persists_error, not_no_error|].
  destruct (delete _ _ !! newName) as [moved|].
  - destruct (Rename_ids _ _ _ _) as [[moved' byId] err].
    apply persists_bind. intros _ ? _.
    destruct err; [apply persists_error, not_no_error|apply persists_save].
  - apply persists_bind. intros _ ? _. apply persists_panic.
Qed.

Lemma persists_Delete name st : persists no_error (Index_Delete name) st.
Proof.
  unfold Index_Delete. apply persists_bind.
  intros [err|] st1 _; [apply persists_error, not_no_error|].
  apply persists_bind. intros i ? _.
  destruct (ByName i !! name) as [history|];
    [|apply persists_error, not_no_error].
  apply persists_bind. intros _ ? _. apply persists_save.
Qed.

Lemma persists_DeleteMatch pattern st :
  persists no_error (Index_DeleteMatch pattern) st.
Proof.
  unfold Index_DeleteMatch. apply persists_bind.
  intros [err|] st1 _; [apply persists_error, not_no_error|].
  apply persists_bind. intros i ? _.
  destruct (DeleteMatch_loop _ _ _) as [i' err].
  apply persists_bind. intros _ ? _.
  destruct err; [apply persists_error, not_no_error|apply persists_save].
Qed.

Lemma persists_Copy now srcNameOrId dstName st :
  persists is_Ok (Index_Copy now srcNameOrId dstName) st.
Proof.
  unfold Index_Copy. destruct (_ || _); [apply persists_error, not_is_Ok|].
  apply persists_bind.
  intros [err|] st1 _; [apply persists_error, not_is_Ok|].
  apply persists_bind. intros [src|] ? _; [|apply persists_error, not_is_Ok].
  destruct (NewImage _ _ _ _) as [dst|err];
    [|apply persists_error, not_is_Ok].
  apply persists_bind. intros [err|] ? _; [apply persists_error, not_is_Ok|].
  apply persists_bind. intros [err|] st4 Hsave;
    [apply persists_error, not_is_Ok|].
  intros r _ _. simpl. by apply Index_save_persisted in Hsave as [_ ?].
Qed.

(** An [Add] that reports success has filed the image and left the
    index on disk, or has found the image on top of its history and
    stopped after the reload. *)
Lemma persists_Add name image st st' :
  Index_Add name image st = (Val None, st') ->
  persisted st' \/
  (Index_load st = (Val None, st') /\
   exists latest rest,
     ByName (index st') !! name = Some (latest :: rest) /\
     Id latest = Id image).
Proof.
  assert (Hstore : forall st1,
             Index_Add_store name image st1 = (Val None, st') ->
             persisted st').
  { intros st1. unfold Index_Add_store. unfold_monad.
    destruct (ByName (index st1) !! name); [|done].
    intros Hsave. by apply Index_save_persisted in Hsave as [_ ?]. }
  unfold Index_Add, bind.
  destruct (Index_load st) as [r st1] eqn:Hload.
  pose proof (Index_load_world _ _ _ Hload) as (_ & _ & err & -> & _).
  destruct err as [err|]; [done|]. unfold_monad.
  destruct (ByName (index st1) !! name) as [[|latest rest]|] eqn:Hname;
    [done|..].
  - destruct (String.eqb_spec (Id latest) (Id image)) as [Hid|Hid].
    + intros [= <-]. right. split; [done|]. by exists latest, rest.
    + intros Hok. left. by eapply Hstore.
  - intros Hok. left. by eapply Hstore.
Qed.
End Persist.

(** The claim of C8 on one run from [st] to [st']: the file of the index
    is the old one or a whole document, and it got there by a rename of a
    temporary file. *)
Definition atomically_saved (st st' : State) : Prop :=
  (files (world st') !! Path (index st) = files (world st) !! Path (index st)
   \/ exists document,
        files (world st') !! Path (index st) = Some (JsonDoc document)) /\
  exists tmp, tmp <> Path (index st) /\
              OpRename tmp (Path (index st)) ∈ trace (world st').

(** The read of [Delete] succeeds, its write breaks off. *)
Definition failing_write_state : State :=
  state_of sample_index {[ index_path := JsonDoc sample_index ]}
           [NoFault; FailPartial].

(** [Delete] writes the file in place: a write that breaks off leaves a
    truncated document at the path of the index, and no rename is made. *)
Lemma Delete_leaves_partial_file :
  files (world (Index_Delete "base" failing_write_state).2) !! index_path
    = Some (Truncated (NewIndex index_path)) /\
  trace (world (Index_Delete "base" failing_write_state).2)
    = [OpReadFile index_path;
       OpWriteFile index_path (JsonDoc (NewIndex index_path))] /\
  ~ atomically_saved failing_write_state
      (Index_Delete "base" failing_write_state).2.
Proof.
  split; [by vm_compute|]. split; [by vm_compute|].
  intros [[Hsame|[document Hdoc]] _].
  - vm_compute in Hsame. discriminate Hsame.
  - vm_compute in Hdoc. discriminate Hdoc.
Qed.

Section Saving.
Context `{json : Json} `{future : Future} `{sorter : Sort}
        `{matcher : Regexp}.

(** C8, amended.  [save] returns the error of [json.Marshal] when the
    index cannot be encoded, having touched no file; otherwise it is a
    single [ioutil.WriteFile] of the serialized index to the path of the
    index, in place: no temporary file is written and nothing is renamed.
    When the write succeeds the file holds the index; when it fails at the
    start the file is as it was; when it breaks off the file holds a
    truncated document.  [Add], [Copy], [Rename], [Delete] and
    [DeleteMatch] touch the file system only by reads and such writes of
    the index file.  [Copy], [Rename], [Delete] and [DeleteMatch] that
    report success have left the index in memory in the file; so has an
    [Add] that reports success, unless it found the image on top of the
    history of the name, when it has stopped after the reload with
    nothing filed and nothing written. *)
Theorem index_is_written_in_place (st : State) :
  (forall err,
      json_Marshal_error (index st) = Some err ->
      Index_save st = (Val (Some err), st)) /\
  (json_Marshal_error (index st) = None ->
   trace (world (Index_save st).2)
   = trace (world st)
     ++ [OpWriteFile (Path (index st)) (JsonDoc (index st))] /\
   match (next_fault (faults (world st))).1 with
   | NoFault =>
       (Index_save st).1 = Val None /\ persisted (Index_save st).2
   | Fail =>
       (exists err, (Index_save st).1 = Val (Some err)) /\
       files (world (Index_save st).2) = files (world st)
   | FailPartial =>
       (exists err, (Index_save st).1 = Val (Some err)) /\
       files (world (Index_save st).2) !! Path (index st)
       = Some (Truncated (index st))
   end) /\
  (forall name image, in_place st (Index_Add name image st).2) /\
  (forall now src dst, in_place st (Index_Copy now src dst st).2) /\
  (forall oldName newName, in_place st (Index_Rename oldName newName st).2) /\
  (forall name, in_place st (Index_Delete name st).2) /\
  (forall pattern, in_place st (Index_DeleteMatch pattern st).2) /\
  (forall name image st',
      Index_Add name image st = (Val None, st') ->
      persisted st' \/
      (Index_load st = (Val None, st') /\
       exists latest rest,
         ByName (index st') !! name = Some (latest :: rest) /\
         Id latest = Id image)) /\
  (forall now src dst image,
      (Index_Copy now src dst st).1 = Val (Ok image) ->
      persisted (Index_Copy now src dst st).2) /\
  (forall oldName newName,
      (Index_Rename oldName newName st).1 = Val None ->
      persisted (Index_Rename oldName newName st).2) /\
  (forall name,
      (Index_Delete name st).1 = Val None ->
      persisted (Index_Delete name st).2) /\
  (forall pattern,
      (Index_DeleteMatch pattern st).1 = Val None ->
      persisted (Index_DeleteMatch pattern st).2).
Proof.
  split.
  { intros err Herr. by rewrite Index_save_spec, Herr. }
  split.
  { intros Hencode. rewrite Index_save_spec, Hencode.
    split; [done|]. unfold persisted, write_error, write_world.
    simpl. destruct (next_fault (faults (world st))).1; simpl.
    - split; [done|]. apply lookup_insert_eq.
    - split; [by eexists|done].
    - split; [by eexists|]. apply lookup_insert_eq. }
  split; [intros; apply in_place_Add|].
  split; [intros; apply in_place_Copy|].
  split; [intros; apply in_place_Rename|].
  split; [intros; apply in_place_Delete|].
  split; [intros; apply in_place_DeleteMatch|].
  split; [intros name image st' Hok; by apply persists_Add|].
  split.
  { intros now src dst image Hok.
    eapply persists_Copy; [exact Hok|]. by eexists. }
  split; [intros ?? Hok; by eapply persists_Rename|].
  split; [intros ? Hok; by eapply persists_Delete|].
  intros ? Hok; by eapply persists_DeleteMatch.
Qed.
End Saving.

Lemma index_is_written_in_place_witness :
  json_Marshal_error (index synced_state) = None /\
  trace (world (Index_save synced_state).2)
  = trace (world synced_state)
    ++ [OpWriteFile (Path (index synced_state))
                    (JsonDoc (index synced_state))] /\
  (Index_Delete "base" synced_state).1 = Val None /\
  persisted (Index_Delete "base" synced_state).2.
Proof.
  assert (Hencode : json_Marshal_error (index synced_state) = None)
    by (vm_compute; reflexivity).
  assert (Hok : (Index_Delete "base" synced_state).1 = Val None)
    by (vm_compute; reflexivity).
  destruct (index_is_written_in_place synced_state)
    as (_ & Hsave & _ & _ & _ & _ & _ & _ & _ & _ & Hdelete & _).
  split; [exact Hencode|].
  split; [exact (proj1 (Hsave Hencode))|].
  split; [exact Hok|].
  exact (Hdelete "base" Hok).
Defined.

(** ** Rolling back a container that could not be set up (C9) *)

Section CreateContainerFacts.
Context `{runtime : Runtime}.

(** C9.  When [CreateContainer] has created the container record and the
    assignment of the user data ["image"], or after it of ["comment"],
    fails with [err], [CreateContainer] calls [Destroy] on the container
    and only then returns the error: the runtime is left as [Destroy]
    left it, [Destroy] succeeds, the container never having been started,
    and the container is no longer among those the runtime holds. *)
Theorem CreateContainer_rolls_back (random : string) (img : Image)
    (ports : list Z) (user : string) (tty openStdin : bool)
    (comment cmd : string) (args : list string)
    (rt rt1 rt2 : Containers_state) (container : Container) (err : error) :
  (8 <= String.length random)%nat ->
  Containers_Create (String.substring 0 8 random) cmd args (Layers img)
    {| Hostname := String.substring 0 8 random; Ports := ports;
       User := user; Tty := tty; OpenStdin := openStdin |} rt
  = (Ok container, rt1) ->
  (Container_SetUserData container "image" (Id img) rt1 = (Some err, rt2) \/
   exists rt',
     Container_SetUserData container "image" (Id img) rt1 = (None, rt') /\
     Container_SetUserData container "comment" comment rt' = (Some err, rt2)) ->
  CreateContainer random img ports user tty openStdin comment cmd args rt
  = (Val (Err (errors_New ("Error setting container userdata: "
                             +:+ error_Error err))),
     (Containers_Destroy container rt2).2) /\
  (Containers_Destroy container rt2).1 = None /\
  Container_Id container ∉ Containers_List (Containers_Destroy container rt2).2.
Proof.
  intros Hlen Hcreate Hfail.
  assert (Hrun1 : Container_Running container rt1 = false)
    by (by eapply Create_not_running).
  assert (Hrun2 : Container_Running container rt2 = false).
  { destruct Hfail as [Himage|(rt' & Himage & Hcomment)].
    - pose proof (SetUserData_Running container "image" (Id img) rt1) as Hk.
      rewrite Himage in Hk. simpl in Hk. congruence.
    - pose proof (SetUserData_Running container "image" (Id img) rt1) as Hk.
      rewrite Himage in Hk. simpl in Hk.
      pose proof (SetUserData_Running container "comment" comment rt') as Hk'.
      rewrite Hcomment in Hk'. simpl in Hk'. congruence. }
  split; [|by apply Destroy_not_running].
  unfold CreateContainer.
  apply Nat.ltb_ge in Hlen. rewrite Hlen, Hcreate.
  destruct Hfail as [Himage|(rt' & Himage & Hcomment)]; rewrite Himage.
  - by destruct (Containers_Destroy container rt2).
  - rewrite Hcomment. by destruct (Containers_Destroy container rt2).
Qed.
End CreateContainerFacts.

(** A runtime to run [CreateContainer] on: it holds the user data of its
    containers, starts none of them, and fails an assignment of user data
    when told to. *)
Record held_containers : Type := {
  held : gmap string (gmap string string);
  userdata_faults : list bool
}.

Definition sample_Create (id cmd : string) (args layers : list string)
    (config : Config) (rt : held_containers)
  : result string * held_containers :=
  (Ok id, {| held := <[id := ∅]> (held rt);
             userdata_faults := userdata_faults rt |}).

Definition sample_SetUserData (c key value : string) (rt : held_containers)
  : option error * held_containers :=
  match userdata_faults rt with
  | true :: rest =>
      (Some (os_PathError "write" c "no space left on device"),
       {| held := held rt; userdata_faults := rest |})
  | _ :: rest =>
      (None, {| held := alter (insert key value) c (held rt);
                userdata_faults := rest |})
  | [] =>
      (None, {| held := alter (insert key value) c (held rt);
                userdata_faults := [] |})
  end.

Definition sample_Destroy (c : string) (rt : held_containers)
  : option error * held_containers :=
  (None, {| held := delete c (held rt);
            userdata_faults := userdata_faults rt |}).

Definition sample_List (rt : held_containers) : list string :=
  elements (dom (held rt)).

Lemma sample_Destroy_removes (c : string) (rt : held_containers) :
  false = false ->
  (sample_Destroy c rt).1 = None /\
  c ∉ sample_List (sample_Destroy c rt).2.
Proof.
  intros _. split; [done|]. unfold sample_List. simpl.
  rewrite elem_of_elements, dom_delete, elem_of_difference, elem_of_singleton.
  by intros [_ Hne].
Qed.

#[local] Instance sample_Runtime : Runtime := {|
  Containers_state := held_containers;
  Container := string;
  Container_Id := fun c => c;
  Container_Running := fun _ _ => false;
  Containers_List := sample_List;
  Containers_Create := sample_Create;
  Container_SetUserData := sample_SetUserData;
  Containers_Destroy := sample_Destroy;
  Create_not_running := fun _ _ _ _ _ _ _ _ _ => eq_refl;
  SetUserData_Running := fun _ _ _ _ => eq_refl;
  Destroy_not_running := sample_Destroy_removes
|}.

Definition base_image : Image := image_at 5 "base:a".

Definition failing_runtime : held_containers :=
  {| held := ∅; userdata_faults := [false; true] |}.

Lemma CreateContainer_rolls_back_witness :
  CreateContainer "0a1b2c3d4e5f" base_image [80] "root" false false
                  "a comment" "/bin/sh" [] failing_runtime
  = (Val (Err (errors_New
                 "Error setting container userdata: write 0a1b2c3d: no space left on device")),
     {| held := ∅; userdata_faults := [] |}) /\
  Containers_List {| held := ∅; userdata_faults := [] |} = [].
Proof.
  split; [|reflexivity].
  refine (proj1 (CreateContainer_rolls_back (runtime := sample_Runtime)
            "0a1b2c3d4e5f" base_image [80] "root" false false
            "a comment" "/bin/sh" [] failing_runtime
            {| held := {[ "0a1b2c3d" := ∅ ]};
               userdata_faults := [false; true] |}
            {| held := {[ "0a1b2c3d" := {[ "image" := "base:a" ]} ]};
               userdata_faults := [] |}
            "0a1b2c3d"
            (os_PathError "write" "0a1b2c3d" "no space left on device")
            _ _ _)).
  - simpl. lia.
  - reflexivity.
  - right. eexists. split; reflexivity.
Defined.

(** ** Renaming (C5) *)

(** What the loop of [Rename] does to [ById], for the images paired with
    what they become. *)
Fixpoint reindex (pairs : list (Image * Image)) (byId : gmap string Image)
  : gmap string Image :=
  match pairs with
  | [] => byId
  | (image, image') :: rest =>
      reindex rest (delete (Id image) (<[Id image' := image']> byId))
  end.

Lemma reindex_other pairs (byId : gmap string Image) (k : string) :
  k ∉ Id <$> pairs.*1 -> k ∉ Id <$> pairs.*2 ->
  reindex pairs byId !! k = byId !! k.
Proof.
  revert byId. induction pairs as [|[image image'] rest IH]; intros byId;
    simpl; [done|].
  rewrite !not_elem_of_cons. intros [Hold Holds] [Hnew Hnews].
  rewrite IH by done.
  rewrite lookup_delete_ne by done. by rewrite lookup_insert_ne.
Qed.

(** No image gets an id that an image of the history had. *)
Definition fresh_ids (pairs : list (Image * Image)) : Prop :=
  forall image image',
    image ∈ pairs.*1 -> image' ∈ pairs.*2 -> Id image' <> Id image.

Lemma fresh_ids_cons pair pairs : fresh_ids (pair :: pairs) -> fresh_ids pairs.
Proof.
  intros Hfresh image image' Hold Hnew.
  apply Hfresh; simpl; by right.
Qed.

Lemma reindex_old pairs (byId : gmap string Image) (image : Image) :
  fresh_ids pairs -> image ∈ pairs.*1 ->
  reindex pairs byId !! Id image = None.
Proof.
  revert byId image. induction pairs as [|[image1 image1'] rest IH];
    intros byId image Hfresh; simpl; [by intros ?%elem_of_nil|].
  intros Hin.
  destruct (decide (Id image ∈ Id <$> rest.*1)) as [Hlater|Hlast].
  - apply list_elem_of_fmap in Hlater as (image2 & -> & Hin2).
    apply IH; [by eapply fresh_ids_cons|done].
  - apply elem_of_cons in Hin as [->|Hin].
    2:{ destruct Hlast. by apply list_elem_of_fmap_2. }
    rewrite reindex_other; [apply lookup_delete_eq|done|].
    intros (image2' & Heq & Hin2)%list_elem_of_fmap.
    symmetry in Heq. revert Heq. apply Hfresh; simpl; [by left|by right].
Qed.

Lemma reindex_new pairs (byId : gmap string Image) (image' : Image) :
  fresh_ids pairs -> NoDup (Id <$> pairs.*2) -> image' ∈ pairs.*2 ->
  reindex pairs byId !! Id image' = Some image'.
Proof.
  revert byId. induction pairs as [|[image1 image1'] rest IH];
    intros byId Hfresh; simpl; [by intros _ ?%elem_of_nil|].
  intros [Hnotin Hnodup]%NoDup_cons [->|Hin]%elem_of_cons.
  - rewrite reindex_other; [|
      intros (image2 & Heq & Hin2)%list_elem_of_fmap;
      revert Heq; apply Hfresh; simpl; [by right|by left] | done].
    rewrite lookup_delete_ne; [apply lookup_insert_eq|].
    intros Heq. symmetry in Heq. revert Heq.
    apply Hfresh; simpl; by left.
  - apply IH; [by eapply fresh_ids_cons|done..].
Qed.

Section RenameFacts.
Context `{future : Future}.

(** [image'] is [image] with the id generated from [newName] and its
    layers. *)
Definition renamed_to (newName : string) (image image' : Image) : Prop :=
  generateImageId newName (Layers image) = Ok (Id image') /\
  image' = Image_setId image (Id image').

Lemma Rename_ids_ok newName todo :
  forall ready byId moved byId',
    Rename_ids newName ready todo byId = (moved, byId', None) ->
    exists todo',
      moved = ready ++ todo' /\
      Forall2 (renamed_to newName) todo todo' /\
      byId' = reindex (zip todo todo') byId.
Proof.
  induction todo as [|image rest IH]; intros ready byId moved byId'; simpl.
  - intros [= <- <-]. exists []. rewrite app_nil_r. by repeat split.
  - destruct (generateImageId newName (Layers image)) as [id|err] eqn:Hid;
      [|done].
    intros Hrest. apply IH in Hrest as (rest' & -> & Hall & ->).
    exists (Image_setId image id :: rest').
    rewrite <- app_assoc. split; [done|]. split; [|done].
    constructor; [|done]. by split.
Qed.

(** The loop goes through when every id can be generated. *)
Lemma Rename_ids_total newName todo :
  Forall (fun image => is_Ok (generateImageId newName (Layers image))) todo ->
  forall ready byId, (Rename_ids newName ready todo byId).2 = None.
Proof.
  induction 1 as [|image rest [id Hid] _ IH]; intros ready byId; simpl;
    [done|].
  rewrite Hid. apply IH.
Qed.
End RenameFacts.

(** What [Find] answers on an index it could load. *)
Definition found (idOrName : string) (i : Index) : option Image :=
  match ById i !! idOrName with
  | Some image => Some image
  | None =>
      match ByName i !! idOrName with
      | Some (image :: _) => Some image
      | _ => None
      end
  end.

Lemma merged_same i : merged i i = i.
Proof.
  unfold merged. destruct i as [path byName byId]; simpl.
  f_equal; apply (idemp_L (∪)).
Qed.

(** On an index that is on disk, [Find] answers from the index. *)
Lemma Find_persisted idOrName st :
  persisted st ->
  (next_fault (faults (world st))).1 = NoFault ->
  Index_Find idOrName st = (Val (found idOrName (index st)), after_read st).
Proof.
  intros Hdisk Hfault. unfold Index_Find, bind.
  destruct (Index_load_spec st) as (err & i' & Heq & _ & Hcase).
  rewrite Hfault, Hdisk in Hcase. destruct Hcase as [-> ->].
  rewrite Heq, merged_same. unfold_monad. unfold found, after_read.
  destruct (ById (index st) !! idOrName); [done|].
  by destruct (ByName (index st) !! idOrName) as [[|? ?]|].
Qed.

(** [Find] does not find what an index that is on disk lacks, whatever
    becomes of its read. *)
Lemma Find_absent idOrName st :
  persisted st ->
  found idOrName (index st) = None ->
  (Index_Find idOrName st).1 = Val None.
Proof.
  intros Hdisk Hnone.
  destruct (next_fault (faults (world st))).1 eqn:Hfault.
  - rewrite Find_persisted by done. simpl. by rewrite Hnone.
  - unfold Index_Find, bind.
    destruct (Index_load_spec st) as (err & i' & Heq & _ & Hcase).
    rewrite Hfault in Hcase. destruct Hcase as [-> ->]. by rewrite Heq.
  - unfold Index_Find, bind.
    destruct (Index_load_spec st) as (err & i' & Heq & _ & Hcase).
    rewrite Hfault in Hcase. destruct Hcase as [-> ->]. by rewrite Heq.
Qed.

Section RenameSpec.
Context `{json : Json} `{future : Future}.

(** The state [Rename] leaves in memory once the history of [oldName]
    is filed under [newName] as [moved]. *)
Definition moved_to (oldName newName : string) (moved : list Image)
    (byId : gmap string Image) (st : State) : State :=
  {| index := {| Path := Path (index st);
                 ByName := <[newName := moved]>
                             (delete oldName (ByName (index st)));
                 ById := byId |};
     world := world st |}.

Lemma Index_Rename_after_load oldName newName st st1 :
  Index_load st = (Val None, st1) ->
  Index_Rename oldName newName st =
    match ByName (index st1) !! oldName with
    | None =>
        (Val (Some (errors_New
                      ("Can't rename " +:+ oldName +:+ ": no such image."))),
         st1)
    | Some history =>
        match ByName (index st1) !! newName with
        | Some _ =>
            (Val (Some (errors_New
                          ("Can't rename to " +:+ newName +:+
                           ": name is already in use."))), st1)
        | None =>
            let '(moved, byId, err) :=
              Rename_ids newName [] history (ById (index st1)) in
            match err with
            | Some err =>
                (Val (Some err), moved_to oldName newName moved byId st1)
            | None => Index_save (moved_to oldName newName moved byId st1)
            end
        end
    end.
Proof.
  intros Hload. unfold Index_Rename, bind. rewrite Hload. unfold_monad.
  destruct (ByName (index st1) !! oldName) as [history|] eqn:Hold; [|done].
  destruct (ByName (index st1) !! newName) as [taken|] eqn:Hnew; [done|].
  assert (Hne : oldName <> newName) by congruence.
  rewrite lookup_delete_ne, lookup_insert_eq by done.
  destruct (Rename_ids newName [] history (ById (index st1)))
    as [[moved byId] err].
  rewrite delete_insert_ne, insert_insert_eq by done.
  unfold moved_to. by destruct err.
Qed.
End RenameSpec.

Section RenameClaim.
Context `{json : Json} `{future : Future}.

(** C5, amended.  Once its reload of the index has succeeded,
    [Rename(old, new)] fails, leaving the reloaded index and the files as
    they are, when [old] is not a registered name or [new] is one.  It
    succeeds when [old] is registered, [new] is free, the id of every
    image of the history can be generated, the renamed index can be
    encoded and the write goes through.
    On success [old] is no longer a registered name, the images that were
    filed under [old] are filed under [new], in their order, each with its
    id recomputed from [new] and its layers, and the index is on disk;
    [Find(old)] returns absent unless [old] is itself the id of an image.
    When the recomputed ids differ from each other and from the ids the
    images had, [ById] holds every image under its recomputed id, where
    [Find] finds it, and none under the ids they had. *)
Theorem Index_Rename_spec (oldName newName : string) (st st1 : State) :
  Index_load st = (Val None, st1) ->
  (ByName (index st1) !! oldName = None ->
     Index_Rename oldName newName st
     = (Val (Some (errors_New
                     ("Can't rename " +:+ oldName +:+ ": no such image."))),
        st1)) /\
  (forall history taken,
      ByName (index st1) !! oldName = Some history ->
      ByName (index st1) !! newName = Some taken ->
      Index_Rename oldName newName st
      = (Val (Some (errors_New
                      ("Can't rename to " +:+ newName +:+
                       ": name is already in use."))), st1)) /\
  files (world st1) = files (world st) /\
  (forall history,
      ByName (index st1) !! oldName = Some history ->
      ByName (index st1) !! newName = None ->
      Forall (fun image => is_Ok (generateImageId newName (Layers image)))
             history ->
      (forall moved byId,
          Rename_ids newName [] history (ById (index st1))
          = (moved, byId, None) ->
          json_Marshal_error
            (index (moved_to oldName newName moved byId st1)) = None) ->
      (next_fault (faults (world st1))).1 = NoFault ->
      (Index_Rename oldName newName st).1 = Val None) /\
  (forall st',
      Index_Rename oldName newName st = (Val None, st') ->
      exists history moved,
        ByName (index st1) !! oldName = Some history /\
        ByName (index st1) !! newName = None /\
        Forall2 (renamed_to newName) history moved /\
        ByName (index st')
        = <[newName := moved]> (delete oldName (ByName (index st1))) /\
        ByName (index st') !! oldName = None /\
        ById (index st') = reindex (zip history moved) (ById (index st1)) /\
        persisted st' /\
        (ById (index st') !! oldName = None ->
         (Index_Find oldName st').1 = Val None) /\
        (NoDup (Id <$> moved) ->
         (forall image image',
             image ∈ history -> image' ∈ moved -> Id image' <> Id image) ->
         (forall image',
             image' ∈ moved ->
             ById (index st') !! Id image' = Some image' /\
             ((next_fault (faults (world st'))).1 = NoFault ->
              (Index_Find (Id image') st').1 = Val (Some image'))) /\
         (forall image,
             image ∈ history -> ById (index st') !! Id image = None))).
Proof.
  intros Hload.
  pose proof (Index_Rename_after_load oldName newName st st1 Hload) as Hrun.
  split; [intros Hold; by rewrite Hrun, Hold|].
  split; [intros history taken Hold Hnew; by rewrite Hrun, Hold, Hnew|].
  split; [by apply Index_load_world in Hload as [-> _]|].
  split.
  { intros history Hold Hnew Hids Hencode Hfault. rewrite Hrun, Hold, Hnew.
    pose proof (Rename_ids_total newName history Hids [] (ById (index st1)))
      as Hnone.
    destruct (Rename_ids newName [] history (ById (index st1)))
      as [[moved byId] err]. simpl in Hnone. subst err.
    rewrite Index_save_spec, (Hencode moved byId eq_refl).
    unfold write_error. simpl. by rewrite Hfault. }
  intros st' Hok. rewrite Hrun in Hok.
  destruct (ByName (index st1) !! oldName) as [history|] eqn:Hold; [|done].
  destruct (ByName (index st1) !! newName) as [taken|] eqn:Hnew; [done|].
  destruct (Rename_ids newName [] history (ById (index st1)))
    as [[moved byId] err] eqn:Hloop.
  destruct err as [err|]; [done|].
  apply Rename_ids_ok in Hloop as (moved' & Hmoved & Hall & ->).
  simpl in Hmoved. subst moved'.
  apply Index_save_persisted in Hok as [Hindex Hdisk].
  assert (Hne : oldName <> newName) by congruence.
  assert (Hgone : ByName (index st') !! oldName = None).
  { rewrite Hindex. simpl.
    rewrite lookup_insert_ne by done. apply lookup_delete_eq. }
  pose proof (Forall2_length _ _ _ Hall) as Hlen.
  exists history, moved.
  split; [done|]. split; [done|]. split; [done|].
  split; [by rewrite Hindex|]. split; [done|].
  split; [by rewrite Hindex|]. split; [done|]. split.
  { intros HbyId. apply Find_absent; [done|].
    unfold found. by rewrite HbyId, Hgone. }
  intros Hnodup Hfresh.
  assert (Hpairs : fresh_ids (zip history moved)).
  { intros image image'. rewrite fst_zip, snd_zip by lia. apply Hfresh. }
  split.
  - intros image' Hin.
    assert (Hlookup : ById (index st') !! Id image' = Some image').
    { rewrite Hindex. simpl.
      apply reindex_new; [done|by rewrite snd_zip by lia..]. }
    split; [done|]. intros Hfault.
    rewrite Find_persisted by done. simpl. unfold found. by rewrite Hlookup.
  - intros image Hin. rewrite Hindex. simpl.
    apply reindex_old; [done|by rewrite fst_zip by lia].
Qed.
End RenameClaim.

(** The claim of C5 on one call, its last part: a [Rename] that fails
    leaves the index as it was. *)
Definition Rename_atomic `{Json} `{Future} (oldName newName : string)
    (st : State)
  : Prop :=
  forall err,
    (Index_Rename oldName newName st).1 = Val (Some err) ->
    index (Index_Rename oldName newName st).2 = index st.

(** The read of [Rename] succeeds, its write is refused. *)
Definition refused_write_state : State :=
  state_of sample_index {[ index_path := JsonDoc sample_index ]}
           [NoFault; Fail].

(** [Rename] has renamed in memory before it saves: when the save fails,
    the error is returned and the index in memory keeps the new name,
    while the file still has the old one. *)
Lemma Rename_failure_keeps_changes :
  (Index_Rename "base" "core" refused_write_state).1
    = Val (Some (os_PathError "open" index_path "permission denied")) /\
  ByName (index refused_write_state) !! "base" = Some [image_at 5 "base:a"] /\
  ByName (index (Index_Rename "base" "core" refused_write_state).2) !! "base"
    = None /\
  files (world (Index_Rename "base" "core" refused_write_state).2)
    !! index_path = Some (JsonDoc sample_index) /\
  ~ Rename_atomic "base" "core" refused_write_state.
Proof.
  split; [by vm_compute|]. split; [by vm_compute|].
  split; [by vm_compute|]. split; [by vm_compute|].
  intros Hatomic.
  assert (Hfail :
    (Index_Rename "base" "core" refused_write_state).1
    = Val (Some (os_PathError "open" index_path "permission denied")))
    by (by vm_compute).
  apply Hatomic in Hfail.
  apply (f_equal (fun i => ByName i !! "base")) in Hfail.
  vm_compute in Hfail. discriminate Hfail.
Qed.

(** A name may be the id of an image: the one image of ["base:x"] has the
    layer ["x"], so that renamed to ["base"] it gets the id ["base:x"],
    and [Find("base:x")] finds it after the renaming. *)
Example Find_old_name_after_Rename :
  let image := {| Id := "base:x:x"; Layers := ["/layers/x"]; Created := 5;
                  Parent := "" |} in
  let i := {| Path := index_path;
              ByName := {[ "base:x" := [image] ]};
              ById := {[ "base:x:x" := image ]} |} in
  let st := state_of i {[ index_path := JsonDoc i ]} [] in
  (Index_Rename "base:x" "base" st).1 = Val None /\
  (Index_Find "base:x" (Index_Rename "base:x" "base" st).2).1
  = Val (Some (Image_setId image "base:x")).
Proof. split; by vm_compute. Qed.

Lemma Index_Rename_spec_witness :
  Index_load synced_state = (Val None, (Index_load synced_state).2) /\
  ByName (index (Index_load synced_state).2) !! "base"
    = Some [image_at 5 "base:a"] /\
  ByName (index (Index_load synced_state).2) !! "core" = None /\
  Index_Rename "base" "core" synced_state
  = (Val None, (Index_Rename "base" "core" synced_state).2) /\
  exists history moved,
    ByName (index (Index_load synced_state).2) !! "base" = Some history /\
    Forall2 (renamed_to "core") history moved /\
    ByName (index (Index_Rename "base" "core" synced_state).2) !! "base"
    = None /\
    persisted (Index_Rename "base" "core" synced_state).2.
Proof.
  assert (Hload : Index_load synced_state
                  = (Val None, (Index_load synced_state).2))
    by reflexivity.
  assert (Hold : ByName (index (Index_load synced_state).2) !! "base"
                 = Some [image_at 5 "base:a"]) by reflexivity.
  assert (Hnew : ByName (index (Index_load synced_state).2) !! "core" = None)
    by reflexivity.
  destruct (Index_Rename_spec "base" "core" synced_state
              (Index_load synced_state).2 Hload)
    as (_ & _ & _ & Hsucceeds & Hsuccess).
  assert (Hok : (Index_Rename "base" "core" synced_state).1 = Val None).
  { apply (Hsucceeds [image_at 5 "base:a"] Hold Hnew).
    - repeat constructor. by eexists.
    - intros moved byId Hloop.
      rewrite <- (f_equal (fun r => r.1.1) Hloop : _ = moved).
      rewrite <- (f_equal (fun r => r.1.2) Hloop : _ = byId).
      vm_compute. reflexivity.
    - reflexivity. }
  assert (Hrun : Index_Rename "base" "core" synced_state
                 = (Val None, (Index_Rename "base" "core" synced_state).2)).
  { destruct (Index_Rename "base" "core" synced_state) as [r st'].
    simpl in Hok. by rewrite Hok. }
  split; [exact Hload|]. split; [exact Hold|]. split; [exact Hnew|].
  split; [exact Hrun|].
  destruct (Hsuccess _ Hrun)
    as (history & moved & Hhistory & _ & Hall & _ & Hgone & _ & Hdisk & _).
  exists history, moved. repeat split; assumption.
Defined.

(** * Further functions of [image.go] *)

(** ** [Image.IdParts] *)

(** [IdParts] cuts an id into a name and a hash of eight bytes.  The id
    is sliced by its length alone: [Id[:len-9]] has a negative bound, and
    panics, when the id is exactly eight bytes long. *)
Definition Image_IdParts (image : Image) : outcome (string * string) :=
  let n := String.length (Id image) in
  if Nat.ltb n 8 then Val ("", Id image)
  else
    let hash := String.substring (n - 8) 8 (Id image) in
    if Nat.ltb n 9 then Panic "slice bounds out of range"
    else
      let name := String.substring 0 (n - 9) (Id image) in
      Val (name, hash).

(** ** [History.Del] *)

(** One round of the loop of [History.Del], at index [idx].  [arr] are
    the elements of the backing array that the [range] goes over, [len]
    is the length [*history] has by now.
    The [append] of the slice from [idx+1] on to the slice up to [idx]
    moves the elements from [idx+1] up to [len] one place down within the
    array and leaves the others; taking the slice from [idx+1] on panics
    when [idx+1] exceeds [len]. *)
Definition Del_step (id : string) (st : option (list Image * nat))
    (idx : nat) : option (list Image * nat) :=
  match st with
  | None => None
  | Some (arr, len) =>
      match arr !! idx with
      | None => Some (arr, len)
      | Some image =>
          if String.eqb (Id image) id then
            if decide (idx + 1 <= len)%nat then
              Some (take idx arr ++ drop (idx + 1) (take len arr)
                      ++ drop (len - 1) arr,
                    (len - 1)%nat)
            else None
          else Some (arr, len)
      end
  end.

(** [History.Del]: the [range] is over the slice as it is at the start,
    the elements are read from the array as it is by then. *)
Definition History_Del (id : string) (history : list Image)
  : outcome (list Image) :=
  match fold_left (Del_step id) (seq 0 (length history))
                  (Some (history, length history)) with
  | Some (arr, len) => Val (take len arr)
  | None => Panic "slice bounds out of range"
  end.

(** ** Image ids, again *)

Section ImageIdFacts.
Context `{future : Future}.

(** X1.  The id of an image depends on its name and on the last elements of
    the paths of its layers only: where the layers lie does not matter. *)
Theorem generateImageId_bases (name : string) (layers layers' : list string) :
  map path_Base layers = map path_Base layers' ->
  generateImageId name layers = generateImageId name layers'.
Proof.
  intros Hbases. unfold generateImageId.
  assert (Hlen : length layers = length layers').
  { by rewrite <- (length_map path_Base layers), Hbases, length_map. }
  rewrite Hlen, !layer_ids_concat, Hbases.
  destruct layers as [|layer layers], layers' as [|layer' layers'];
    try done.
  simpl in *. injection Hbases as Hhead _. by rewrite Hhead.
Qed.

(** Every generated id starts with the name and a colon. *)
Lemma generateImageId_prefix name layers id :
  generateImageId name layers = Ok id ->
  exists hash, id = name +:+ ":" +:+ hash.
Proof.
  unfold generateImageId. destruct (Nat.eqb _ 0); [done|].
  destruct (if Nat.eqb _ 1 then _ else _) as [hash|err]; [|done].
  intros [= <-]. by exists hash.
Qed.
End ImageIdFacts.

Lemma generateImageId_bases_witness :
  map path_Base ["/var/lib/docker/images/layers/4f2a"; "/old/77"]
    = map path_Base ["/mnt/layers/4f2a"; "/mnt/layers/77"] /\
  generateImageId "base" ["/var/lib/docker/images/layers/4f2a"; "/old/77"]
    = generateImageId "base" ["/mnt/layers/4f2a"; "/mnt/layers/77"].
Proof.
  split; [reflexivity|].
  apply (generateImageId_bases "base"). reflexivity.
Defined.

(** ** Parts of an id *)

Lemma length_append s t :
  String.length (s +:+ t) = (String.length s + String.length t)%nat.
Proof.
  induction s as [|a s IH]; [done|].
  rewrite append_cons. simpl. by rewrite IH.
Qed.

Lemma substring_0_0 s : String.substring 0 0 s = "".
Proof. by destruct s. Qed.

Lemma substring_whole s : String.substring 0 (String.length s) s = s.
Proof. induction s as [|a s IH]; simpl; [done|by rewrite IH]. Qed.

Lemma substring_append_l s t :
  String.substring 0 (String.length s) (s +:+ t) = s.
Proof.
  induction s as [|a s IH].
  - apply substring_0_0.
  - rewrite append_cons. simpl. by rewrite IH.
Qed.

Lemma substring_append_r s t :
  String.substring (String.length s) (String.length t) (s +:+ t) = t.
Proof.
  induction s as [|a s IH].
  - apply substring_whole.
  - rewrite append_cons. simpl. apply IH.
Qed.

Lemma length_substring (n m : nat) (s : string) :
  (n + m <= String.length s)%nat ->
  String.length (String.substring n m s) = m.
Proof.
  revert n m. induction s as [|a s IH]; intros n m Hlen; simpl in *.
  - by destruct n, m; simpl; try lia.
  - destruct n as [|n]; [destruct m as [|m]|]; simpl; [done|..].
    + rewrite IH; [done|lia].
    + apply IH. lia.
Qed.

(** A string is what lies before a position, the byte at it, and what
    lies after. *)
Lemma string_split_at (k : nat) (s : string) :
  (k < String.length s)%nat ->
  exists c,
    s = String.substring 0 k s
          +:+ String c (String.substring (S k) (String.length s - S k) s).
Proof.
  revert k. induction s as [|a s IH]; intros k Hk; simpl in *; [lia|].
  destruct k as [|k].
  - exists a. rewrite Nat.sub_0_r, substring_whole. reflexivity.
  - destruct (IH k) as [c Hc]; [lia|]. exists c.
    rewrite append_cons. by rewrite <- Hc.
Qed.

(** X2.  [IdParts] leaves an id of fewer than eight bytes whole, panics on an
    id of exactly eight bytes, and otherwise returns the last eight bytes
    as the hash and all but the last nine as the name: the byte between
    them is dropped, whether it is a colon or not. *)
Theorem IdParts_by_length (image : Image) :
  ((String.length (Id image) < 8)%nat ->
     Image_IdParts image = Val ("", Id image)) /\
  (String.length (Id image) = 8%nat ->
     Image_IdParts image = Panic "slice bounds out of range") /\
  ((9 <= String.length (Id image))%nat ->
     exists name hash sep,
       Image_IdParts image = Val (name, hash) /\
       String.length hash = 8%nat /\
       Id image = name +:+ String sep hash).
Proof.
  unfold Image_IdParts. split; [|split].
  - intros Hlen. apply Nat.ltb_lt in Hlen. by rewrite Hlen.
  - intros Hlen. by rewrite Hlen.
  - intros Hlen.
    destruct (Nat.ltb_spec (String.length (Id image)) 8); [lia|].
    destruct (Nat.ltb_spec (String.length (Id image)) 9); [lia|].
    destruct (string_split_at (String.length (Id image) - 9) (Id image))
      as [sep Hsplit]; [lia|].
    replace (S (String.length (Id image) - 9))
      with (String.length (Id image) - 8)%nat in Hsplit by lia.
    replace (String.length (Id image) - (String.length (Id image) - 8))%nat
      with 8%nat in Hsplit by lia.
    eexists _, _, sep. split; [done|]. split; [|done].
    apply length_substring. lia.
Qed.

Lemma IdParts_by_length_witness :
  (9 <= String.length (Id (image_at 5 "base:0a1b2c3d")))%nat /\
  exists name hash sep,
    Image_IdParts (image_at 5 "base:0a1b2c3d") = Val (name, hash) /\
    String.length hash = 8%nat /\
    Id (image_at 5 "base:0a1b2c3d") = name +:+ String sep hash.
Proof.
  assert (Hlen : (9 <= String.length (Id (image_at 5 "base:0a1b2c3d")))%nat)
    by (simpl; lia).
  split; [exact Hlen|].
  exact (proj2 (proj2 (IdParts_by_length (image_at 5 "base:0a1b2c3d"))) Hlen).
Defined.

(** X3.  [IdParts] gives back the name and the hash an id was made of exactly
    when the hash is eight bytes long. *)
Theorem IdParts_roundtrip (image : Image) (name hash : string) :
  Id image = name +:+ ":" +:+ hash ->
  (Image_IdParts image = Val (name, hash) <-> String.length hash = 8%nat).
Proof.
  intros Hid. unfold Image_IdParts. rewrite Hid.
  rewrite length_append, length_append. simpl.
  split.
  - destruct (Nat.ltb_spec (String.length name + S (String.length hash)) 8)
      as [Hshort|Hlong].
    + intros [= Hname Hhash]. apply (f_equal String.length) in Hhash.
      rewrite length_append, length_append in Hhash. simpl in Hhash. lia.
    + destruct (Nat.ltb_spec (String.length name + S (String.length hash)) 9);
        [done|].
      intros [= _ Hhash]. rewrite <- Hhash. apply length_substring.
      rewrite length_append, length_append. simpl. lia.
  - intros Hlen. rewrite Hlen.
    destruct (Nat.ltb_spec (String.length name + 9) 8); [lia|].
    destruct (Nat.ltb_spec (String.length name + 9) 9); [lia|].
    replace (String.length name + 9 - 9)%nat with (String.length name) by lia.
    rewrite substring_append_l.
    replace (String.length name + 9 - 8)%nat
      with (String.length (name +:+ ":")) by (rewrite length_append; simpl; lia).
    rewrite <- append_assoc, <- Hlen.
    by rewrite substring_append_r.
Qed.

Lemma IdParts_roundtrip_witness :
  Id (image_at 5 "base:0a1b2c3d") = "base" +:+ ":" +:+ "0a1b2c3d" /\
  String.length "0a1b2c3d" = 8%nat /\
  Image_IdParts (image_at 5 "base:0a1b2c3d") = Val ("base", "0a1b2c3d").
Proof.
  split; [reflexivity|]. split; [reflexivity|].
  apply (proj2 (IdParts_roundtrip (image_at 5 "base:0a1b2c3d")
                  "base" "0a1b2c3d" eq_refl)).
  reflexivity.
Defined.

(** ** Deleting from a history *)

Lemma Del_steps_nomatch id idxs (arr : list Image) (len : nat) :
  (forall idx image, idx ∈ idxs -> arr !! idx = Some image -> Id image <> id) ->
  fold_left (Del_step id) idxs (Some (arr, len)) = Some (arr, len).
Proof.
  induction idxs as [|idx idxs IH]; intros Hno; simpl; [done|].
  destruct (arr !! idx) as [image|] eqn:Himage.
  - assert (Hne : Id image <> id) by (eapply Hno; [by left|done]).
    apply String.eqb_neq in Hne. rewrite Hne.
    apply IH. intros idx' image' Hin. apply Hno. by right.
  - apply IH. intros idx' image' Hin. apply Hno. by right.
Qed.

Lemma Del_steps_panicked id idxs :
  fold_left (Del_step id) idxs None = None.
Proof. by induction idxs. Qed.

(** [History.Del] leaves a history without the id as it is. *)
Lemma History_Del_absent id history :
  Forall (fun image => Id image <> id) history ->
  History_Del id history = Val history.
Proof.
  intros Hno. unfold History_Del.
  rewrite Del_steps_nomatch; [by rewrite firstn_all|].
  intros idx image _ Hidx. rewrite Forall_forall in Hno.
  apply Hno. by eapply list_elem_of_lookup_2.
Qed.

(** X4.  [History.Del] removes the image with the id, or leaves the history
    as it is, when no more than one image has the id: the images before
    and after it stay, in their order. *)
Theorem History_Del_unique (id : string) (before after : list Image)
    (image : Image) :
  Id image = id ->
  Forall (fun other => Id other <> id) before ->
  Forall (fun other => Id other <> id) after ->
  History_Del id (before ++ after) = Val (before ++ after) /\
  History_Del id (before ++ image :: after) = Val (before ++ after).
Proof.
  intros Hid Hbefore Hafter.
  split; [apply History_Del_absent; by apply Forall_app|].
  unfold History_Del. rewrite length_app. simpl.
  replace (length before + S (length after))%nat
    with (length before + (1 + length after))%nat by lia.
  rewrite seq_app, fold_left_app.
  rewrite Del_steps_nomatch.
  2:{ intros idx other Hin%elem_of_seq Hidx.
      rewrite lookup_app_l in Hidx by lia.
      rewrite Forall_forall in Hbefore. apply Hbefore.
      by eapply list_elem_of_lookup_2. }
  rewrite seq_app, fold_left_app. simpl.
  rewrite list_lookup_middle by done.
  apply String.eqb_eq in Hid. rewrite Hid.
  destruct (decide (length before + 1 <= length before + S (length after))%nat) as [_|]; [|lia].
  assert (Hhead : take (length before) (before ++ image :: after) = before)
    by (by rewrite take_app_length).
  assert (Hmid : drop (length before + 1) (take (length before + S (length after))
                                 (before ++ image :: after)) = after).
  { rewrite take_ge by (rewrite length_app; simpl; lia).
    replace (length before + 1)%nat with (length (before ++ [image]))
      by (rewrite length_app; simpl; lia).
    rewrite (cons_middle image before after), app_assoc.
    by rewrite drop_app_length. }
  rewrite Hhead, Hmid.
  rewrite Del_steps_nomatch.
  - rewrite app_assoc.
    replace (length before + S (length after) - 1)%nat
      with (length (before ++ after)) by (rewrite length_app; lia).
    by rewrite take_app_length.
  - intros idx other Hin%elem_of_seq Hidx.
    rewrite Forall_forall in Hafter. apply Hafter.
    rewrite lookup_app_r in Hidx by lia.
    destruct after as [|a after'] using rev_ind; [simpl in *; lia|].
    clear IHafter'.
    assert (Hlast : drop (length before + S (length (after' ++ [a])) - 1)
                         (before ++ image :: after' ++ [a]) = [a]).
    { replace (length before + S (length (after' ++ [a])) - 1)%nat
        with (length (before ++ image :: after'))
        by (rewrite ?length_app; simpl; rewrite ?length_app; simpl; lia).
      rewrite (app_comm_cons after' [a] image), app_assoc.
      by rewrite drop_app_length. }
    rewrite Hlast in Hidx.
    apply list_elem_of_lookup_2 in Hidx.
    rewrite elem_of_app in Hidx. destruct Hidx as [?|Ha]; [done|].
    apply list_elem_of_singleton in Ha as ->.
    rewrite elem_of_app. right. by left.
Qed.

(** Once an element is gone the last place of the array still holds the
    last image, and [*history] is shorter than the array. *)
Definition Del_shrunk (n : nat) (last : Image)
    (st : option (list Image * nat)) : Prop :=
  match st with
  | None => True
  | Some (arr, len) =>
      length arr = n /\ (len < n)%nat /\ arr !! (n - 1)%nat = Some last
  end.

Lemma Del_step_shrunk id n last st idx :
  Del_shrunk n last st -> Del_shrunk n last (Del_step id st idx).
Proof.
  destruct st as [[arr len]|]; [|done]. intros (Hn & Hlen & Hlast). simpl.
  destruct (arr !! idx) as [image|] eqn:Himage; [|done].
  destruct (String.eqb (Id image) id); [|done].
  destruct (decide (idx + 1 <= len)%nat) as [Hidx|]; [|done].
  simpl. split; [|split; [lia|]].
  - rewrite !length_app, length_take, !length_drop, length_take. lia.
  - rewrite lookup_app_r by (rewrite length_take; lia).
    rewrite lookup_app_r
      by (rewrite length_take, length_drop, length_take; lia).
    rewrite lookup_drop. rewrite <- Hlast. f_equal.
    rewrite length_take, length_drop, length_take. lia.
Qed.

Lemma Del_step_match id n last arr len idx image :
  length arr = n -> (len <= n)%nat -> arr !! (n - 1)%nat = Some last ->
  arr !! idx = Some image -> Id image = id ->
  Del_shrunk n last (Del_step id (Some (arr, len)) idx).
Proof.
  intros Hn Hlen Hlast Himage Hid. simpl. rewrite Himage.
  apply String.eqb_eq in Hid. rewrite Hid.
  destruct (decide (idx + 1 <= len)%nat) as [Hidx|]; [|done].
  simpl. split; [|split; [lia|]].
  - rewrite !length_app, length_take, !length_drop, length_take. lia.
  - rewrite lookup_app_r by (rewrite length_take; lia).
    rewrite lookup_app_r
      by (rewrite length_take, length_drop, length_take; lia).
    rewrite lookup_drop. rewrite <- Hlast. f_equal.
    rewrite length_take, length_drop, length_take. lia.
Qed.

Lemma Del_steps_shrunk id n last idxs st :
  Del_shrunk n last st ->
  Del_shrunk n last (fold_left (Del_step id) idxs st).
Proof.
  revert st. induction idxs as [|idx idxs IH]; intros st Hst; simpl; [done|].
  apply IH. by apply Del_step_shrunk.
Qed.

(** The first image with the id. *)
Lemma Exists_first id (l : list Image) :
  Exists (fun image => Id image = id) l ->
  exists l1 image l2,
    l = l1 ++ image :: l2 /\ Id image = id /\
    Forall (fun other => Id other <> id) l1.
Proof.
  induction l as [|a l IH]; intros Hex; [by inversion Hex|].
  destruct (decide (Id a = id)) as [Ha|Ha].
  - by exists [], a, l.
  - inversion Hex as [|? ? Hl]; subst; [done|].
    destruct (IH Hl) as (l1 & image & l2 & -> & Hid & Hl1).
    exists (a :: l1), image, l2. split; [done|]. split; [done|].
    by constructor.
Qed.

(** X5.  [History.Del] panics when the last image of the history has the id
    and an earlier one has it too: the slice has shrunk by the time the
    loop, which runs over the old length, comes to the last place. *)
Theorem History_Del_panics (id : string) (before : list Image)
    (last : Image) :
  Id last = id ->
  Exists (fun image => Id image = id) before ->
  History_Del id (before ++ [last]) = Panic "slice bounds out of range".
Proof.
  intros Hlast Hex.
  destruct (Exists_first id before Hex) as (l1 & image & l2 & -> & Hid & Hl1).
  unfold History_Del.
  remember ((l1 ++ image :: l2) ++ [last]) as full eqn:Hfull.
  assert (Hn : length full = (length l1 + (1 + (length l2 + 1)))%nat).
  { subst full. rewrite !length_app. simpl. lia. }
  assert (Hat_last : full !! (length full - 1)%nat = Some last).
  { rewrite Hn. subst full.
    replace (length l1 + (1 + (length l2 + 1)) - 1)%nat
      with (length (l1 ++ image :: l2)) by (rewrite length_app; simpl; lia).
    by rewrite list_lookup_middle. }
  assert (Hat_first : full !! length l1 = Some image).
  { subst full. rewrite <- app_assoc. simpl. by rewrite list_lookup_middle. }
  assert (Hprefix : forall idx other,
             (idx < length l1)%nat -> full !! idx = Some other ->
             Id other <> id).
  { intros idx other Hidx Hother. subst full.
    rewrite <- app_assoc, lookup_app_l in Hother by done.
    rewrite Forall_forall in Hl1. apply Hl1.
    by eapply list_elem_of_lookup_2. }
  clear Hfull. rewrite Hn at 1.
  rewrite seq_app, fold_left_app.
  rewrite Del_steps_nomatch
    by (intros idx other Hin%elem_of_seq; apply Hprefix; lia).
  rewrite seq_app, fold_left_app.
  pose proof (Del_step_match id (length full) last full (length full)
                (length l1) image eq_refl (Nat.le_refl _) Hat_last
                Hat_first Hid) as Hfirst.
  rewrite seq_app, fold_left_app.
  rewrite !Nat.add_0_l. cbn [seq fold_left].
  pose proof (Del_steps_shrunk id (length full) last
                (seq (length l1 + 1) (length l2)) _ Hfirst) as Hmid.
  destruct (fold_left (Del_step id) (seq (length l1 + 1) (length l2)) _)
    as [[arr len]|]; [|reflexivity].
  destruct Hmid as (Harr & Hlen & Hlast').
  simpl.
  replace (length l1 + 1 + length l2)%nat with (length full - 1)%nat by lia.
  rewrite Hlast'. apply String.eqb_eq in Hlast. rewrite Hlast.
  destruct (decide (length full - 1 + 1 <= len)%nat); [lia|done].
Qed.

Lemma History_Del_unique_witness :
  Id (image_at 5 "base:b") = "base:b" /\
  History_Del "base:b"
    ([image_at 9 "base:c"] ++ image_at 5 "base:b" :: [image_at 3 "base:a"])
  = Val ([image_at 9 "base:c"] ++ [image_at 3 "base:a"]).
Proof.
  split; [reflexivity|].
  apply (History_Del_unique "base:b" [image_at 9 "base:c"]
           [image_at 3 "base:a"] (image_at 5 "base:b")).
  - reflexivity.
  - repeat constructor. discriminate.
  - repeat constructor. discriminate.
Defined.

Lemma History_Del_panics_witness :
  Id (image_at 3 "base:a") = "base:a" /\
  History_Del "base:a" ([image_at 5 "base:a"] ++ [image_at 3 "base:a"])
  = Panic "slice bounds out of range".
Proof.
  split; [reflexivity|].
  apply (History_Del_panics "base:a" [image_at 5 "base:a"]
           (image_at 3 "base:a")); [reflexivity|].
  constructor. reflexivity.
Defined.

(** ** The names of the index *)

Lemma ltb_negb_leb x y : String.ltb x y = negb (String.leb y x).
Proof.
  unfold String.ltb, String.leb. rewrite (String.compare_antisym x y).
  by destruct (String.compare y x).
Qed.

Lemma leb_trans x y z :
  String.leb x y = true -> String.leb y z = true -> String.leb x z = true.
Proof.
  intros Hxy%Is_true_true Hyz%Is_true_true. apply Is_true_true.
  change (String.le x z). by transitivity y.
Qed.

Lemma leb_refl x : String.leb x x = true.
Proof. apply Is_true_true. change (String.le x x). done. Qed.

(** The order of [sort.Strings]: strings compared byte by byte. *)
Lemma String_ltb_StrictWeak : StrictWeak String.ltb.
Proof.
  split.
  - intros x. by rewrite ltb_negb_leb, leb_refl.
  - intros x y z. rewrite !ltb_negb_leb, !negb_true_iff.
    intros Hyx Hzy. destruct (String.leb z x) eqn:Hzx; [|done].
    destruct (String.leb_total x y) as [Hxy|Hyx']; [|congruence].
    by rewrite (leb_trans z x y) in Hzy.
  - intros x y z. rewrite !ltb_negb_leb, !negb_false_iff.
    intros Hyx Hzy. by apply (leb_trans z y x).
Qed.

Lemma ltb_of_neq x y : String.ltb y x = false -> x <> y -> String.ltb x y = true.
Proof.
  rewrite !ltb_negb_leb, negb_false_iff, negb_true_iff.
  intros Hxy Hne. destruct (String.leb y x) eqn:Hyx; [|done].
  destruct Hne. by apply String.leb_antisym.
Qed.

(** Sorted and without repetition is strictly sorted. *)
Lemma Sorted_strict (names : list string) :
  Sorted (fun x y => String.ltb y x = false) names -> NoDup names ->
  Sorted (fun x y => String.ltb x y = true) names.
Proof.
  induction 1 as [|a l Hl IH Ha]; intros Hnodup; [constructor|].
  apply NoDup_cons in Hnodup as [Hnotin Hnodup].
  constructor; [by apply IH|].
  destruct Ha as [|b l' Hab]; constructor.
  apply ltb_of_neq; [done|]. intros ->. apply Hnotin. by left.
Qed.

Section NamesFacts.
Context `{sorter : Sort}.

(** X6.  Once the reload of the index has succeeded, [Names] returns the
    registered names, each once, in strictly ascending order of their
    bytes. *)
Theorem Index_Names_spec (st st1 : State) :
  Index_load st = (Val None, st1) ->
  exists names,
    Index_Names st = (Val names, st1) /\
    (forall name, name ∈ names <-> is_Some (ByName (index st1) !! name)) /\
    NoDup names /\
    Sorted (fun x y => String.ltb x y = true) names.
Proof.
  intros Hload. unfold Index_Names, bind. rewrite Hload. unfold_monad.
  eexists. split; [done|].
  pose proof (sort_Sort_Permutation string String.ltb
                (map_to_list (ByName (index st1))).*1) as Hperm.
  assert (Hnodup : NoDup (sort_Sort String.ltb
                            (map_to_list (ByName (index st1))).*1)).
  { rewrite <- Hperm. apply NoDup_fst_map_to_list. }
  split; [|split; [done|]].
  - intros name. rewrite <- Hperm. rewrite list_elem_of_fmap. split.
    + intros ([name' history] & -> & Hin). simpl.
      apply elem_of_map_to_list in Hin. by eexists.
    + intros [history Hname]. exists (name, history). split; [done|].
      by apply elem_of_map_to_list.
  - apply Sorted_strict; [|done].
    apply sort_Sort_Sorted, String_ltb_StrictWeak.
Qed.
End NamesFacts.

(** Two names, filed out of order. *)
Definition two_names_index : Index :=
  {| Path := index_path;
     ByName := {[ "ubuntu" := [image_at 7 "ubuntu:u"];
                  "base" := [image_at 5 "base:a"] ]};
     ById := {[ "ubuntu:u" := image_at 7 "ubuntu:u";
                "base:a" := image_at 5 "base:a" ]} |}.

Definition two_names_state : State :=
  state_of two_names_index {[ index_path := JsonDoc two_names_index ]} [].

Lemma Index_Names_spec_witness :
  Index_load two_names_state = (Val None, (Index_load two_names_state).2) /\
  exists names,
    Index_Names two_names_state
      = (Val names, (Index_load two_names_state).2) /\
    Sorted (fun x y => String.ltb x y = true) names.
Proof.
  assert (Hload : Index_load two_names_state
                  = (Val None, (Index_load two_names_state).2))
    by (vm_compute; reflexivity).
  split; [exact Hload|].
  destruct (Index_Names_spec two_names_state (Index_load two_names_state).2
              Hload) as (names & Hrun & _ & _ & Hsorted).
  exists names. split; [exact Hrun|exact Hsorted].
Defined.

Example Index_Names_run :
  (Index_Names two_names_state).1 = Val ["base"; "ubuntu"].
Proof. vm_compute. reflexivity. Qed.

(** ** Deleting names *)

Ltac by_membership :=
  repeat match goal with
         | H : context [_ ∈ _ :: _] |- _ => rewrite elem_of_cons in H
         end;
  tauto.

Lemma delete_ids_lookup (history : list Image) (byId : gmap string Image)
    (id : string) :
  delete_ids history byId !! id
  = if decide (id ∈ Id <$> history) then None else byId !! id.
Proof.
  unfold delete_ids. revert byId.
  induction history as [|image history IH]; intros byId.
  - case_decide as Hin; [by apply elem_of_nil in Hin|done].
  - cbn [fold_left]. rewrite IH, fmap_cons.
    destruct (decide (id = Id image)) as [->|Hne].
    + rewrite lookup_delete_eq. repeat case_decide; try done; exfalso; by_membership.
    + rewrite lookup_delete_ne by done.
      repeat case_decide; try done; exfalso; by_membership.
Qed.

Section DeleteFacts.
Context `{json : Json} `{future : Future} `{sorter : Sort}
        `{matcher : Regexp}.

(** X7.  Once its reload of the index has succeeded, [Delete(name)] fails
    with "No such image" and writes nothing when the name is not
    registered.  Otherwise it unregisters the name, leaves the other names
    as they are, drops from [ById] every id an image of the history has
    (also when an image of another name has that id) and no other, and
    saves; once it has reported success, [Find(name)] returns absent
    unless [name] is the id of an image that is left. *)
Theorem Index_Delete_spec (name : string) (st st1 : State) :
  Index_load st = (Val None, st1) ->
  (ByName (index st1) !! name = None ->
     Index_Delete name st
     = (Val (Some (errors_New ("No such image: " +:+ name))), st1)) /\
  (forall history,
      ByName (index st1) !! name = Some history ->
      let i' := {| Path := Path (index st1);
                   ByName := delete name (ByName (index st1));
                   ById := delete_ids history (ById (index st1)) |} in
      Index_Delete name st = Index_save {| index := i'; world := world st1 |} /\
      index (Index_Delete name st).2 = i' /\
      ByName i' !! name = None /\
      (forall other, other <> name ->
                     ByName i' !! other = ByName (index st1) !! other) /\
      (forall id, ById i' !! id
                  = if decide (id ∈ Id <$> history) then None
                    else ById (index st1) !! id) /\
      (forall st',
          Index_Delete name st = (Val None, st') ->
          persisted st' /\
          (ById (index st') !! name = None ->
           (Index_Find name st').1 = Val None))).
Proof.
  intros Hload. split.
  - intros Hname. unfold Index_Delete, bind. rewrite Hload. unfold_monad.
    by rewrite Hname.
  - intros history Hname i'.
    assert (Hrun : Index_Delete name st
                   = Index_save {| index := i'; world := world st1 |}).
    { unfold Index_Delete, bind. rewrite Hload. unfold_monad.
      by rewrite Hname. }
    split; [done|]. rewrite Hrun.
    split; [apply Index_save_index|].
    split; [apply lookup_delete_eq|].
    split; [intros other Hne; by apply lookup_delete_ne|].
    split; [intros id; apply delete_ids_lookup|].
    intros st' Hok. apply Index_save_persisted in Hok as [Hindex Hdisk].
    split; [done|]. intros HbyId. apply Find_absent; [done|].
    unfold found. rewrite HbyId, Hindex. simpl.
    by rewrite lookup_delete_eq.
Qed.

(** What the loop of [DeleteMatch] leaves of the names and the ids, when
    the pattern can be matched against every name it meets. *)
Lemma DeleteMatch_loop_spec (pattern : string) (matches : string -> bool)
    (entries : list (string * list Image)) :
  (forall entry, entry ∈ entries ->
                 regexp_MatchString pattern entry.1 = Ok (matches entry.1)) ->
  forall i,
    (DeleteMatch_loop pattern entries i).2 = None /\
    (forall name,
        ByName (DeleteMatch_loop pattern entries i).1 !! name
        = if decide (name ∈ entries.*1) then
            if matches name then None else ByName i !! name
          else ByName i !! name) /\
    (forall id,
        ById (DeleteMatch_loop pattern entries i).1 !! id
        = if decide (Exists (fun entry => matches entry.1 = true /\
                                          id ∈ Id <$> entry.2) entries)
          then None else ById i !! id).
Proof.
  induction entries as [|[name history] rest IH]; intros Hmatch i.
  - split; [done|]. split.
    + intros name. case_decide as Hin; [by apply elem_of_nil in Hin|done].
    + intros id. case_decide as Hex; [by apply Exists_nil in Hex|done].
  - cbn [DeleteMatch_loop].
    pose proof (Hmatch (name, history)) as Hhere. cbn [fst] in Hhere.
    rewrite Hhere by left.
    assert (Hrest : forall entry, entry ∈ rest ->
              regexp_MatchString pattern entry.1 = Ok (matches entry.1)).
    { intros entry Hin. apply Hmatch. by right. }
    destruct (matches name) eqn:Hname.
    + destruct (IH Hrest {| Path := Path i;
                            ByName := delete name (ByName i);
                            ById := delete_ids history (ById i) |})
        as (Herr & HbyName & HbyId).
      split; [done|]. split.
      * intros other. rewrite HbyName, fmap_cons. cbn [fst ByName].
        destruct (decide (other = name)) as [->|Hne].
        -- rewrite Hname, lookup_delete_eq.
           repeat case_decide; try done; exfalso; by_membership.
        -- rewrite lookup_delete_ne by done.
           repeat case_decide; try done; exfalso; by_membership.
      * intros id. rewrite HbyId. cbn [ById]. rewrite delete_ids_lookup.
        repeat case_decide; try done; exfalso.
        -- match goal with H : ~ Exists _ (_ :: _) |- _ => apply H end.
           by right.
        -- match goal with H : ~ Exists _ (_ :: _) |- _ => apply H end.
           left. by split.
        -- match goal with H : Exists _ (_ :: _) |- _ =>
             apply Exists_cons in H as [[_ ?]|?] end; done.
    + destruct (IH Hrest i) as (Herr & HbyName & HbyId).
      split; [done|]. split.
      * intros other. rewrite HbyName, fmap_cons. cbn [fst].
        destruct (decide (other = name)) as [->|Hne].
        -- rewrite Hname. repeat case_decide; try done; exfalso; by_membership.
        -- repeat case_decide; try done; exfalso; by_membership.
      * intros id. rewrite HbyId.
        repeat case_decide; try done; exfalso.
        -- match goal with H : ~ Exists _ (_ :: _) |- _ => apply H end.
           by right.
        -- match goal with H : Exists _ (_ :: _) |- _ =>
             apply Exists_cons in H as [[Hyes _]|?] end; [|done].
           cbn [fst] in Hyes. congruence.
Qed.

(** X8.  Once its reload of the index has succeeded, [DeleteMatch(pattern)]
    - saves the index as it is, without looking at the pattern, when no
      name is registered: a pattern that does not compile goes unnoticed;
    - returns the error of the pattern, having deleted and written
      nothing, when names are registered and the pattern cannot be
      matched;
    - otherwise unregisters exactly the names that match, drops from
      [ById] the ids of their images and no other, and saves. *)
Theorem Index_DeleteMatch_spec (pattern : string) (st st1 : State) :
  Index_load st = (Val None, st1) ->
  (ByName (index st1) = ∅ -> Index_DeleteMatch pattern st = Index_save st1) /\
  (forall err,
      ByName (index st1) <> ∅ ->
      (forall name, regexp_MatchString pattern name = Err err) ->
      Index_DeleteMatch pattern st = (Val (Some err), st1)) /\
  (forall matches : string -> bool,
      (forall name, is_Some (ByName (index st1) !! name) ->
                    regexp_MatchString pattern name = Ok (matches name)) ->
      exists i',
        Index_DeleteMatch pattern st
        = Index_save {| index := i'; world := world st1 |} /\
        Path i' = Path (index st1) /\
        (forall name,
            ByName i' !! name
            = if matches name then None else ByName (index st1) !! name) /\
        (forall name history image,
            ByName (index st1) !! name = Some history ->
            matches name = true -> image ∈ history ->
            ById i' !! Id image = None) /\
        (forall id,
            (forall name history,
                ByName (index st1) !! name = Some history ->
                matches name = true -> id ∉ Id <$> history) ->
            ById i' !! id = ById (index st1) !! id)).
Proof.
  intros Hload.
  assert (Hrun : Index_DeleteMatch pattern st =
            let '(i', err) :=
              DeleteMatch_loop pattern (map_to_list (ByName (index st1)))
                               (index st1) in
            match err with
            | Some err => (Val (Some err), {| index := i'; world := world st1 |})
            | None => Index_save {| index := i'; world := world st1 |}
            end).
  { unfold Index_DeleteMatch, bind. rewrite Hload. unfold_monad.
    destruct (DeleteMatch_loop _ _ _) as [i' [err|]]; done. }
  split; [|split].
  - intros Hempty. rewrite Hrun, Hempty, map_to_list_empty.
    cbn [DeleteMatch_loop]. by destruct st1.
  - intros err Hnames Herr. rewrite Hrun.
    destruct (map_to_list (ByName (index st1))) as [|[name history] rest]
      eqn:Hlist.
    { by apply map_to_list_empty_iff in Hlist. }
    cbn [DeleteMatch_loop]. rewrite Herr. by destruct st1.
  - intros matches Hmatch.
    destruct (DeleteMatch_loop_spec pattern matches
                (map_to_list (ByName (index st1)))) with (i := index st1)
      as (Herr & HbyName & HbyId).
    { intros [name history] Hin%elem_of_map_to_list. apply Hmatch.
      by eexists. }
    pose proof (DeleteMatch_loop_Path pattern
                  (map_to_list (ByName (index st1))) (index st1)) as Hpath.
    destruct (DeleteMatch_loop pattern (map_to_list (ByName (index st1)))
                               (index st1)) as [i' err].
    cbn [fst snd] in *. subst err. exists i'.
    split; [done|]. split; [done|]. split; [|split].
    + intros name. rewrite HbyName. case_decide as Hin; [done|].
      destruct (ByName (index st1) !! name) as [history|] eqn:Hname;
        [|by destruct (matches name)].
      destruct Hin. apply list_elem_of_fmap. exists (name, history).
      split; [done|]. by apply elem_of_map_to_list.
    + intros name history image Hname Hyes Himage. rewrite HbyId.
      case_decide as Hex; [done|]. destruct Hex.
      apply Exists_exists. exists (name, history).
      split; [by apply elem_of_map_to_list|]. split; [done|].
      by apply list_elem_of_fmap_2.
    + intros id Hkept. rewrite HbyId. case_decide as Hex; [|done].
      apply Exists_exists in Hex as ([name history] & Hin & Hyes & Hid).
      apply elem_of_map_to_list in Hin. by destruct (Hkept name history).
Qed.
End DeleteFacts.

Lemma Index_Delete_spec_witness :
  Index_load two_names_state = (Val None, (Index_load two_names_state).2) /\
  ByName (index (Index_load two_names_state).2) !! "base"
    = Some [image_at 5 "base:a"] /\
  Index_Delete "base" two_names_state
    = (Val None, (Index_Delete "base" two_names_state).2) /\
  persisted (Index_Delete "base" two_names_state).2.
Proof.
  assert (Hload : Index_load two_names_state
                  = (Val None, (Index_load two_names_state).2))
    by (vm_compute; reflexivity).
  assert (Hname : ByName (index (Index_load two_names_state).2) !! "base"
                  = Some [image_at 5 "base:a"]) by (vm_compute; reflexivity).
  assert (Hok : Index_Delete "base" two_names_state
                = (Val None, (Index_Delete "base" two_names_state).2))
    by (vm_compute; reflexivity).
  split; [exact Hload|]. split; [exact Hname|]. split; [exact Hok|].
  destruct (proj2 (Index_Delete_spec "base" two_names_state
                     (Index_load two_names_state).2 Hload)
                  [image_at 5 "base:a"] Hname)
    as (_ & _ & _ & _ & _ & Hsaved).
  exact (proj1 (Hsaved _ Hok)).
Defined.

(** With the names ["base"] and ["ubuntu"] registered, the pattern
    ["base"] is matched against both and removes the first. *)
Lemma Index_DeleteMatch_spec_witness :
  Index_load two_names_state = (Val None, (Index_load two_names_state).2) /\
  exists i',
    Index_DeleteMatch "base" two_names_state
    = Index_save {| index := i';
                    world := world (Index_load two_names_state).2 |} /\
    ByName i' !! "base" = None /\
    ByName i' !! "ubuntu" = Some [image_at 7 "ubuntu:u"].
Proof.
  assert (Hload : Index_load two_names_state
                  = (Val None, (Index_load two_names_state).2))
    by (vm_compute; reflexivity).
  split; [exact Hload|].
  destruct (proj2 (proj2 (Index_DeleteMatch_spec "base" two_names_state
                            (Index_load two_names_state).2 Hload))
                  (String.eqb "base"))
    as (i' & Hrun & _ & HbyName & _).
  { intros name _. reflexivity. }
  exists i'. split; [exact Hrun|]. split.
  - exact (HbyName "base").
  - rewrite (HbyName "ubuntu"). vm_compute. reflexivity.
Defined.

(** ** Copying an image *)

Section CopyFacts.
Context `{json : Json} `{future : Future} `{sorter : Sort}.

(** X9.  An image that [Copy(src, dst)] returns shares the layers of the
    image [Find(src)] found after the reload, has that image as its
    parent and an id generated from [dst]; by then the index is on disk.
    [Copy] returns it whenever the reload, [Find], the generation of the
    id, [Add] and the final save succeed, and fails with "No such image"
    when [Find] finds nothing. *)
Theorem Index_Copy_spec (now : Z) (srcNameOrId dstName : string)
    (st : State) :
  (forall image st',
      Index_Copy now srcNameOrId dstName st = (Val (Ok image), st') ->
      srcNameOrId <> "" /\ dstName <> "" /\
      exists st1 st2 src,
        Index_load st = (Val None, st1) /\
        Index_Find srcNameOrId st1 = (Val (Some src), st2) /\
        Layers image = Layers src /\
        Parent image = Id src /\
        Created image = now /\
        generateImageId dstName (Layers src) = Ok (Id image) /\
        persisted st') /\
  (forall st1 st2 st3 st4 src image,
      srcNameOrId <> "" -> dstName <> "" ->
      Index_load st = (Val None, st1) ->
      Index_Find srcNameOrId st1 = (Val (Some src), st2) ->
      NewImage now dstName (Layers src) (Id src) = Ok image ->
      Index_Add dstName image st2 = (Val None, st3) ->
      Index_save st3 = (Val None, st4) ->
      Index_Copy now srcNameOrId dstName st = (Val (Ok image), st4)) /\
  (forall st1 st2,
      srcNameOrId <> "" -> dstName <> "" ->
      Index_load st = (Val None, st1) ->
      Index_Find srcNameOrId st1 = (Val None, st2) ->
      Index_Copy now srcNameOrId dstName st
      = (Val (Err (errors_New ("No such image: " +:+ srcNameOrId))), st2)).
Proof.
  split; [|split].
  - intros image st' Hcopy. unfold Index_Copy in Hcopy.
    destruct (String.eqb_spec srcNameOrId "") as [|Hsrc]; [done|].
    destruct (String.eqb_spec dstName "") as [|Hdst]; [done|].
    split; [done|]. split; [done|].
    cbn [orb] in Hcopy. unfold bind in Hcopy.
    destruct (Index_load st) as [[[err|]|msg] st1]; [done| |done].
    destruct (Index_Find srcNameOrId st1) as [[[src|]|msg] st2] eqn:Hfind;
      [|done..].
    unfold NewImage in Hcopy.
    destruct (generateImageId dstName (Layers src)) as [id|err] eqn:Hid;
      [|done].
    destruct (Index_Add dstName _ st2) as [[[err|]|msg] st3]; [done| |done].
    destruct (Index_save st3) as [[[err|]|msg] st4] eqn:Hsave; [done| |done].
    unfold ret in Hcopy. injection Hcopy as <- <-.
    exists st1, st2, src. apply Index_save_persisted in Hsave as [_ Hdisk].
    by repeat split.
  - intros st1 st2 st3 st4 src image Hsrc Hdst Hload Hfind Hnew Hadd Hsave.
    unfold Index_Copy.
    apply String.eqb_neq in Hsrc, Hdst. rewrite Hsrc, Hdst.
    cbn [orb]. unfold bind. by rewrite Hload, Hfind, Hnew, Hadd, Hsave.
  - intros st1 st2 Hsrc Hdst Hload Hfind. unfold Index_Copy.
    apply String.eqb_neq in Hsrc, Hdst. rewrite Hsrc, Hdst.
    cbn [orb]. unfold bind. by rewrite Hload, Hfind.
Qed.
End CopyFacts.

Lemma Index_Copy_spec_witness :
  Index_Copy 9 "base" "copy" synced_state
  = (Val (Ok {| Id := "copy:base:a"; Layers := ["/layers/base:a"];
                Created := 9; Parent := "base:a" |}),
     (Index_Copy 9 "base" "copy" synced_state).2) /\
  exists st1 st2 src,
    Index_load synced_state = (Val None, st1) /\
    Index_Find "base" st1 = (Val (Some src), st2) /\
    Layers {| Id := "copy:base:a"; Layers := ["/layers/base:a"];
              Created := 9; Parent := "base:a" |} = Layers src /\
    Parent {| Id := "copy:base:a"; Layers := ["/layers/base:a"];
              Created := 9; Parent := "base:a" |} = Id src.
Proof.
  assert (Hrun :
    Index_Copy 9 "base" "copy" synced_state
    = (Val (Ok {| Id := "copy:base:a"; Layers := ["/layers/base:a"];
                  Created := 9; Parent := "base:a" |}),
       (Index_Copy 9 "base" "copy" synced_state).2))
    by (vm_compute; reflexivity).
  split; [exact Hrun|].
  destruct (proj1 (Index_Copy_spec 9 "base" "copy" synced_state) _ _ Hrun)
    as (_ & _ & st1 & st2 & src & Hload & Hfind & Hlayers & Hparent & _).
  exists st1, st2, src.
  split; [exact Hload|]. split; [exact Hfind|].
  split; [exact Hlayers|exact Hparent].
Defined.

(** ** Adding, then looking up *)

(** The reload of an index that is on disk changes nothing in memory. *)
Lemma Index_load_persisted st :
  persisted st ->
  (next_fault (faults (world st))).1 = NoFault ->
  Index_load st = (Val None, after_read st).
Proof.
  intros Hdisk Hfault.
  destruct (Index_load_spec st) as (err & i' & Heq & _ & Hcase).
  rewrite Hfault, Hdisk in Hcase. destruct Hcase as [-> ->].
  by rewrite Heq, merged_same.
Qed.

Section AddFind.
Context `{json : Json} `{sorter : Sort}.

(** X10.  When [Add(name, image)] has filed the image and reported success,
    a [Find] of the id of the image, its read not failing, returns the
    image.  When the image is moreover strictly newer than the images the
    name had, so that it is on top of the history, a second
    [Add(name, image)] reports success after its reload, with the index
    in memory and the files as the first left them. *)
Theorem Add_then_Find (name : string) (image : Image) (history : list Image)
    (st st1 st' : State) :
  Index_load st = (Val None, st1) ->
  (ByName (index st1) !! name = None /\ history = []) \/
  (ByName (index st1) !! name = Some history /\
   exists latest rest, history = latest :: rest /\ Id latest <> Id image) ->
  Index_Add name image st = (Val None, st') ->
  (next_fault (faults (world st'))).1 = NoFault ->
  Index_Find (Id image) st' = (Val (Some image), after_read st') /\
  (Forall (fun older => Created older < Created image) history ->
   Index_Find name st'
   = (Val (Some (default image (ById (index st') !! name))), after_read st')
   /\ Index_Add name image st' = (Val None, after_read st')).
Proof.
  intros Hload Hcase Hadd Hfault.
  assert (Hsave : Index_save {| index := filed name image history (index st1);
                                world := world st1 |} = (Val None, st')).
  { rewrite <- Hadd. unfold Index_Add, bind. rewrite Hload. unfold_monad.
    destruct Hcase as [[Hname ->]|(Hname & latest & rest & -> & Hid)];
      rewrite Hname.
    - rewrite Index_Add_store_spec with (history := []);
        [|apply lookup_insert_eq].
      unfold filed; simpl. by rewrite insert_insert_eq.
    - apply String.eqb_neq in Hid. rewrite Hid.
      destruct st1. symmetry. by apply Index_Add_store_spec. }
  apply Index_save_persisted in Hsave as [Hindex Hdisk]. simpl in Hindex.
  assert (HbyId : ById (index st') !! Id image = Some image).
  { rewrite Hindex. apply lookup_insert_eq. }
  split.
  { rewrite Find_persisted by done. unfold found. by rewrite HbyId. }
  intros Holder.
  destruct (History_Add_newest history image Holder) as [rest Hrest].
  assert (HbyName : ByName (index st') !! name = Some (image :: rest)).
  { rewrite Hindex. simpl. rewrite <- Hrest. apply lookup_insert_eq. }
  split.
  - rewrite Find_persisted by done. unfold found. rewrite HbyName.
    by destruct (ById (index st') !! name).
  - unfold Index_Add, bind. rewrite Index_load_persisted by done.
    unfold_monad. by rewrite HbyName, String.eqb_refl.
Qed.
End AddFind.

Lemma Add_then_Find_witness :
  Index_load synced_state = (Val None, (Index_load synced_state).2) /\
  Index_Add "base" (image_at 9 "base:b") synced_state
    = (Val None, (Index_Add "base" (image_at 9 "base:b") synced_state).2) /\
  Index_Find "base:b" (Index_Add "base" (image_at 9 "base:b") synced_state).2
  = (Val (Some (image_at 9 "base:b")),
     after_read (Index_Add "base" (image_at 9 "base:b") synced_state).2).
Proof.
  assert (Hload : Index_load synced_state
                  = (Val None, (Index_load synced_state).2))
    by (vm_compute; reflexivity).
  assert (Hadd : Index_Add "base" (image_at 9 "base:b") synced_state
    = (Val None, (Index_Add "base" (image_at 9 "base:b") synced_state).2))
    by (vm_compute; reflexivity).
  split; [exact Hload|]. split; [exact Hadd|].
  refine (proj1 (Add_then_Find "base" (image_at 9 "base:b")
                   [image_at 5 "base:a"] synced_state
                   (Index_load synced_state).2 _ Hload _ Hadd _)).
  - right. split; [vm_compute; reflexivity|].
    exists (image_at 5 "base:a"), []. split; [reflexivity|discriminate].
  - vm_compute. reflexivity.
Defined.

(** ** What [load] keeps *)




(** ** No history is empty, no operation panics *)













Section NeverPanics.
Context `{json : Json} `{future : Future} `{sorter : Sort}
        `{matcher : Regexp}.








(** [Add] panics, with an index out of range, on a name whose history
    is empty: the one way an empty history gets in is a document that
    has one. *)
Lemma Add_panics_on_empty_history name image st st1 :
  Index_load st = (Val None, st1) ->
  ByName (index st1) !! name = Some [] ->
  Index_Add name image st = (Panic "index out of range", st1).
Proof.
  intros Hload Hname. unfold Index_Add, bind. rewrite Hload. unfold_monad.
  by rewrite Hname.
Qed.

End NeverPanics.


